(** * form-validator: the validation engine of [Validator]

    A shallow embedding of the TypeScript class [Validator] (rule registry,
    rule-string parser, field compiler, evaluator, error store, submit and
    reset), followed by the properties of it that the specification states.

    Conventions of the embedding.
    - A JavaScript string is the sequence of its code units; the model
      covers code units below 256, one [ascii] each, so [String.length] is
      the JavaScript [length].  The Cyrillic text of the built-in messages
      is carried as the bytes of the literal: messages are only searched
      for [$n] and copied.
    - An object used as a dictionary ([_valueFields],
      [Validator.validators], [_errorMessageElements]) is a [gmap] over its
      own properties.  Where the class reads such an object under a name
      that may be missing, the members that every object inherits from
      [Object.prototype] ([JS.inherited]) are taken into account: the
      reads of [this._errors[name]] and of [this._valueFields[name]].
    - [_errors] is the object as the class reads and writes it: under a
      name that is not inherited the inner object of that own key, and
      under an inherited name the properties that the class has put onto
      the inherited member, for the code never creates an own key there
      ([ErrorType]).  The Error Store of the specification is the own
      keys ([ownKeys]); [isError] counts them, and [this._errors = {}]
      removes them and nothing else.  A validator is taken in a realm
      where nothing else has put properties onto these members.
    - Outside the model: rules that are themselves named like a member
      of an object; the name [__proto__] as far as an assignment under it
      creates no property and what is written through it onto
      [Object.prototype] is inherited by every other object; a field
      that is named like a member of the form element while the form has
      no control of that name.
    - The form is the map from the names of its controls, one control
      for each name, to their current values.
    - A predicate of the registry is a total function of the snapshot, the
      value and the parameters.  A callback registered by the host is an
      observer: the model records that it was invoked and with which
      arguments, in [calls].
    - An uncaught [TypeError] (a rule name missing from the registry at
      evaluation time, a missing error element or input) is the result
      [None].
    - The factory [create] is modelled over the static fields of the
      class, [Static.t]; [new] is the constructor as [create] calls it. *)

From Stdlib Require Import ZArith Ascii DecimalString DecimalNat.
From Stdlib Require QArith.
From stdpp Require Import base option list gmap fin_maps strings.

Local Open Scope Z_scope.

(** ** The JavaScript built-ins the class relies on *)

Module JS.

Import QArith_base Qreduction.
Local Open Scope Z_scope.

(** *** Strings *)

(** The code units below 256 that are WhiteSpace or LineTerminator, and
    so stripped by [trim].  The others that [trim] strips (U+1680,
    U+2000 to U+200A, U+2028, U+2029, U+202F, U+205F, U+3000, U+FEFF)
    are not code units of the strings of the model. *)
Definition isWhiteSpace (c : ascii) : bool :=
  match N_of_ascii c with
  | 9%N | 10%N | 11%N | 12%N | 13%N | 32%N | 160%N => true
  | _ => false
  end.

Fixpoint trimStart (s : string) : string :=
  match s with
  | EmptyString => EmptyString
  | String c s' => if isWhiteSpace c then trimStart s' else s
  end.

Definition trimEnd (s : string) : string :=
  String.rev (trimStart (String.rev s)).

(** [String.prototype.trim] *)
Definition trim (s : string) : string := trimEnd (trimStart s).

(** [String.prototype.split] with a separator of one code unit and no
    limit: the result is never empty, and [split sep ""] is [[""]]. *)
Fixpoint split (sep : ascii) (s : string) : list string :=
  match s with
  | EmptyString => [EmptyString]
  | String c s' =>
      if Ascii.eqb c sep then EmptyString :: split sep s'
      else match split sep s' with
           | h :: t => String c h :: t
           | [] => [String c EmptyString]
           end
  end.

Fixpoint stripPrefix (p s : string) : option string :=
  match p, s with
  | EmptyString, _ => Some s
  | String a p', String b s' =>
      if Ascii.eqb a b then stripPrefix p' s' else None
  | String _ _, EmptyString => None
  end.

(** First occurrence of [pat] in [s]: the text before it and after it. *)
Fixpoint search (pat s : string) : option (string * string) :=
  match stripPrefix pat s with
  | Some rest => Some (EmptyString, rest)
  | None =>
      match s with
      | EmptyString => None
      | String c s' =>
          match search pat s' with
          | Some (before, rest) => Some (String c before, rest)
          | None => None
          end
      end
  end.

(** GetSubstitution for a string pattern (no captures): in the
    replacement text [$$] is a dollar, [$&] the matched text, [$`] the
    text before the match and [$'] the text after it; every other [$]
    stands for itself. *)
Fixpoint GetSubstitution (matched before rest tpl : string) : string :=
  match tpl with
  | EmptyString => EmptyString
  | String c tpl' =>
      if Ascii.eqb c "$" then
        match tpl' with
        | EmptyString => String c EmptyString
        | String d tpl'' =>
            if Ascii.eqb d "$" then
              String "$" (GetSubstitution matched before rest tpl'')
            else if Ascii.eqb d "&" then
              matched +:+ GetSubstitution matched before rest tpl''
            else if Ascii.eqb d "`" then
              before +:+ GetSubstitution matched before rest tpl''
            else if Ascii.eqb d "'" then
              rest +:+ GetSubstitution matched before rest tpl''
            else String c (GetSubstitution matched before rest tpl')
        end
      else String c (GetSubstitution matched before rest tpl')
  end.

(** [String.prototype.replace] with a string pattern and a string
    replacement: only the first occurrence is replaced. *)
Definition replace (s pat replacement : string) : string :=
  match search pat s with
  | Some (before, rest) =>
      before +:+ GetSubstitution pat before rest replacement +:+ rest
  | None => s
  end.

(** Decimal rendering of an array index plus one, as in [`$${index + 1}`]. *)
Definition toString (n : nat) : string :=
  NilEmpty.string_of_uint (Nat.to_uint n).

(** *** Objects *)

(** The property names that an object created by [{}] inherits from
    [Object.prototype]: under such a name [object[name]] is a function
    (for [__proto__], [Object.prototype] itself) as long as the object
    has no own property of that name. *)
Definition inherited (name : string) : bool :=
  bool_decide
    (name ∈ ["constructor"; "hasOwnProperty"; "isPrototypeOf";
             "propertyIsEnumerable"; "toLocaleString"; "toString";
             "valueOf"; "__proto__"; "__defineGetter__";
             "__defineSetter__"; "__lookupGetter__"; "__lookupSetter__"]).

(** *** Numbers *)

(** A Number value: IEEE 754 binary64, a finite value being the
    rational it denotes (the two zeros are not told apart: no
    comparison of the class does). *)
Inductive number : Type :=
| NaN
| PosInfinity
| NegInfinity
| Finite (q : Q).

Definition isNaN (x : number) : bool :=
  match x with NaN => true | _ => false end.

(** [a <= b] and [a >= b] on Numbers: false as soon as one side is NaN. *)
Definition le (a b : number) : bool :=
  match a, b with
  | NaN, _ | _, NaN => false
  | NegInfinity, _ => true
  | _, PosInfinity => true
  | PosInfinity, _ => false
  | _, NegInfinity => false
  | Finite x, Finite y => Qle_bool x y
  end.

Definition ge (a b : number) : bool := le b a.

(** The Number of a string length. *)
Definition ofLength (n : nat) : number := Finite (inject_Z (Z.of_nat n)).

(** [p / d / 2 ^ k] as a numerator and a denominator. *)
Definition scale2 (p d k : Z) : Z * Z :=
  if 0 <=? k then (p, d * 2 ^ k) else (p * 2 ^ (- k), d).

(** Round the positive rational [p / d] to binary64, to nearest, ties to
    even: 53 significant bits, least exponent -1074, overflow to
    Infinity from [2 ^ 1024] on. *)
Definition roundPositive (p d : Z) : number :=
  let e0 := Z.log2 p - Z.log2 d in
  let '(n0, d0) := scale2 p d e0 in
  let e := if d0 <=? n0 then e0 else e0 - 1 in
  let u := Z.max (e - 52) (-1074) in
  let '(n, m) := scale2 p d u in
  let q := n / m in
  let r := n mod m in
  let q' :=
    if (m <? 2 * r) || ((m =? 2 * r) && Z.odd q) then q + 1 else q in
  if 0 <=? u then
    if 2 ^ 1024 <=? q' * 2 ^ u then PosInfinity
    else Finite (inject_Z (q' * 2 ^ u))
  else Finite (Qred (Qmake q' (Z.to_pos (2 ^ (- u))))).

Definition negate (x : number) : number :=
  match x with
  | NaN => NaN
  | PosInfinity => NegInfinity
  | NegInfinity => PosInfinity
  | Finite q => Finite (Qopp q)
  end.

Definition round64 (q : Q) : number :=
  match Qnum q with
  | Z0 => Finite (inject_Z 0)
  | Zpos p => roundPositive (Zpos p) (Zpos (Qden q))
  | Zneg p => negate (roundPositive (Zpos p) (Zpos (Qden q)))
  end.

Definition digitValue (c : ascii) : option Z :=
  let n := Z.of_N (N_of_ascii c) in
  if (48 <=? n) && (n <=? 57) then Some (n - 48)
  else if (97 <=? n) && (n <=? 102) then Some (n - 87)
  else if (65 <=? n) && (n <=? 70) then Some (n - 55)
  else None.

(** The longest run of digits of [base] at the head of [s]: its value
    on top of [acc], the number of digits read, and what follows. *)
Fixpoint digits (base acc : Z) (count : nat) (s : string)
  : Z * nat * string :=
  match s with
  | EmptyString => (acc, count, s)
  | String c s' =>
      match digitValue c with
      | Some d =>
          if d <? base then digits base (acc * base + d) (S count) s'
          else (acc, count, s)
      | None => (acc, count, s)
      end
  end.

(** The mathematical value [m * 10 ^ e]. *)
Definition decimalValue (m e : Z) : Q :=
  if 0 <=? e then inject_Z (m * 10 ^ e)
  else Qmake m (Z.to_pos (10 ^ (- e))).

(** SignedInteger of an ExponentPart, up to the end of the string. *)
Definition SignedInteger (s : string) : option Z :=
  let '(neg, s1) :=
    match s with
    | String c r =>
        if Ascii.eqb c "+" then (false, r)
        else if Ascii.eqb c "-" then (true, r)
        else (false, s)
    | EmptyString => (false, s)
    end in
  let '(v, n, r) := digits 10 0 0 s1 in
  match n, r with
  | S _, EmptyString => Some (if neg then - v else v)
  | _, _ => None
  end.

(** StrUnsignedDecimalLiteral: [Infinity], or digits with an optional
    fraction and an optional exponent, at least one digit before the
    exponent. *)
Definition StrUnsignedDecimalLiteral (s : string) : option number :=
  if String.eqb s "Infinity" then Some PosInfinity
  else
    let '(ip, ni, r1) := digits 10 0 0 s in
    let '(m, nf, r2) :=
      match r1 with
      | String c r =>
          if Ascii.eqb c "." then digits 10 ip 0 r else (ip, 0%nat, r1)
      | EmptyString => (ip, 0%nat, r1)
      end in
    match (ni + nf)%nat with
    | O => None
    | S _ =>
        let ex :=
          match r2 with
          | EmptyString => Some 0
          | String c r =>
              if Ascii.eqb c "e" || Ascii.eqb c "E" then SignedInteger r
              else None
          end in
        match ex with
        | Some e => Some (round64 (decimalValue m (e - Z.of_nat nf)))
        | None => None
        end
    end.

Definition StrDecimalLiteral (s : string) : option number :=
  match s with
  | String c r =>
      if Ascii.eqb c "+" then StrUnsignedDecimalLiteral r
      else if Ascii.eqb c "-" then negate <$> StrUnsignedDecimalLiteral r
      else StrUnsignedDecimalLiteral s
  | EmptyString => None
  end.

(** NonDecimalIntegerLiteral: [0x], [0o] or [0b] (either case) and at
    least one digit of that base, unsigned. *)
Definition NonDecimalIntegerLiteral (s : string) : option number :=
  match s with
  | String z (String b r) =>
      if Ascii.eqb z "0" then
        let base :=
          if Ascii.eqb b "x" || Ascii.eqb b "X" then Some 16
          else if Ascii.eqb b "o" || Ascii.eqb b "O" then Some 8
          else if Ascii.eqb b "b" || Ascii.eqb b "B" then Some 2
          else None in
        match base with
        | Some k =>
            match digits k 0 0 r with
            | (v, S _, EmptyString) => Some (round64 (inject_Z v))
            | _ => None
            end
        | None => None
        end
      else None
  | _ => None
  end.

(** StringToNumber: white space around the literal is dropped, the
    empty string is 0, anything that is not a numeric literal is NaN. *)
Definition StringToNumber (s : string) : number :=
  let t := trim s in
  if String.eqb t "" then Finite (inject_Z 0)
  else
    match NonDecimalIntegerLiteral t with
    | Some x => x
    | None => default NaN (StrDecimalLiteral t)
    end.

(** [Number(v)] for [v] a string or [undefined] (here [None]). *)
Definition Number (v : option string) : number :=
  match v with
  | Some s => StringToNumber s
  | None => NaN
  end.

(** *** Regular expressions *)

(** Patterns without captures, searched from [^] to [$] with no flag:
    [test] is membership of the whole string in the language. *)
Inductive regex : Type :=
| Void
| Eps
| Class (p : ascii -> bool)
| Seq (r1 r2 : regex)
| Alt (r1 r2 : regex)
| Star (r : regex).

Fixpoint nullable (r : regex) : bool :=
  match r with
  | Void => false
  | Eps => true
  | Class _ => false
  | Seq r1 r2 => nullable r1 && nullable r2
  | Alt r1 r2 => nullable r1 || nullable r2
  | Star _ => true
  end.

Fixpoint deriv (c : ascii) (r : regex) : regex :=
  match r with
  | Void => Void
  | Eps => Void
  | Class p => if p c then Eps else Void
  | Seq r1 r2 =>
      if nullable r1 then Alt (Seq (deriv c r1) r2) (deriv c r2)
      else Seq (deriv c r1) r2
  | Alt r1 r2 => Alt (deriv c r1) (deriv c r2)
  | Star r1 => Seq (deriv c r1) (Star r1)
  end.

Fixpoint test (r : regex) (s : string) : bool :=
  match s with
  | EmptyString => nullable r
  | String c s' => test (deriv c r) s'
  end.

Definition Plus (r : regex) : regex := Seq r (Star r).
Definition Opt (r : regex) : regex := Alt r Eps.

Definition inRange (lo hi c : ascii) : bool :=
  (N_of_ascii lo <=? N_of_ascii c)%N && (N_of_ascii c <=? N_of_ascii hi)%N.

Definition letter (c : ascii) : bool := inRange "a" "z" c || inRange "A" "Z" c.
Definition digit (c : ascii) : bool := inRange "0" "9" c.
Definition oneOf (l : list ascii) (c : ascii) : bool :=
  existsb (Ascii.eqb c) l.

End JS.

(** ** The types of the class *)

(** [FieldType]: a field as the host declares it. *)
Module FieldType.
Record t : Type := Build {
  name : string;
  valid : string;
  syncCall : option string
}.
End FieldType.

(** An element of [ParsedFieldType.validators]. *)
Module ParsedValidator.
Record t : Type := Build {
  name : string;
  parameters : list string
}.
End ParsedValidator.

Module ParsedFieldType.
Record t : Type := Build {
  name : string;
  syncCall : option string;
  validators : list ParsedValidator.t
}.
End ParsedFieldType.

Inductive EventType : Type := input | blur | submit | all.

(** [InstanceValidatorType]: a predicate called as
    [validator.call(this, value, ...parameters)], with the number of
    parameters its definition declares ([Function.length]). *)
Module InstanceValidatorType.
Record t : Type := Build {
  length : nat;
  call : gmap string string -> string -> list string -> bool
}.
End InstanceValidatorType.

(** A value of [ValidatorsType]; [NewValidatorType] is this with a name. *)
Module ValidatorEntry.
Record t : Type := Build {
  message : string;
  validator : InstanceValidatorType.t
}.
End ValidatorEntry.

Abbreviation ValidatorsType := (gmap string ValidatorEntry.t).

(** [this._errors], read as [this._errors[field]].  Under a name that is
    not inherited ([JS.inherited]) the entry is the inner object of the
    own key [field].  Under an inherited name the object has no own key,
    ever: [this._errors[field]] is the inherited member, and the entry
    holds the messages that the class has put onto that member; no entry,
    or an empty one, is the member without any. *)
Abbreviation ErrorType := (gmap string (gmap string string)).

(** The error element created for a field: whether its class list holds
    [input-error--visible], and its text. *)
Module HTMLDivElement.
Record t : Type := Build {
  visible : bool;
  textContent : string
}.
End HTMLDivElement.

(** What the class throws. *)
Inductive Error : Type :=
| ValidatorNotDefined (validatorName : string)
| ValidatorAlreadyPresent (name : string)
| SelectorNotFound (selector : string)
| ButtonNotFound
| FormFieldNotFound (field : string)
| SyncFieldNotFound (syncCall field : string)
| ValidatorNotFound (name : string)
| ArgumentsMismatch (name : string) (argLen : Z) (received : nat)
| InField (field : string) (e : Error).

Inductive result (A : Type) : Type :=
| Ok (a : A)
| Throw (e : Error).
Arguments Ok {A} a.
Arguments Throw {A} e.

(** [Array.prototype.map] with a callback that may throw: the first
    element whose callback throws ends the traversal. *)
Fixpoint mapThrow {A B : Type} (f : A -> result B) (l : list A)
  : result (list B) :=
  match l with
  | [] => Ok []
  | x :: l' =>
      match f x with
      | Throw e => Throw e
      | Ok y =>
          match mapThrow f l' with
          | Throw e => Throw e
          | Ok ys => Ok (y :: ys)
          end
      end
  end.

(** What the engine calls outside itself, oldest first. *)
Inductive Call : Type :=
| OnErrorCallback (value field : string) (errors : gmap string string)
| OnSubmitCallback (props : gmap string string)
| preventDefault.

(** A non-empty string is truthy. *)
Definition truthy (s : string) : bool :=
  match s with EmptyString => false | String _ _ => true end.

(** ** The class [Validator] *)

Module Validator.

Import InstanceValidatorType ValidatorEntry HTMLDivElement.

(** *** The static registry *)

Definition trimmedLength (value : string) : JS.number :=
  JS.ofLength (String.length (JS.trim value)).

Definition required : InstanceValidatorType.t :=
  {| length := 1;
     call _ value _ := (0 <? String.length (JS.trim value))%nat |}.

Definition minLen : InstanceValidatorType.t :=
  {| length := 2;
     call _ value args :=
       JS.ge (trimmedLength value) (JS.Number (args !! 0%nat)) |}.

Definition maxLen : InstanceValidatorType.t :=
  {| length := 2;
     call _ value args :=
       JS.le (trimmedLength value) (JS.Number (args !! 0%nat)) |}.

Definition number : InstanceValidatorType.t :=
  {| length := 1;
     call _ value _ := negb (JS.isNaN (JS.Number (Some value))) |}.

Definition min : InstanceValidatorType.t :=
  {| length := 2;
     call _ value args :=
       JS.ge (JS.Number (Some value)) (JS.Number (args !! 0%nat)) |}.

Definition max : InstanceValidatorType.t :=
  {| length := 2;
     call _ value args :=
       JS.le (JS.Number (Some value)) (JS.Number (args !! 0%nat)) |}.

Definition range : InstanceValidatorType.t :=
  {| length := 3;
     call _ value args :=
       let len := trimmedLength value in
       JS.ge len (JS.Number (args !! 0%nat))
       && JS.le len (JS.Number (args !! 1%nat)) |}.

(** [/^[a-zA-Z0-9._-]+@[a-zA-Z0-9.-]+\.[a-zA-Z]{2,4}$/] *)
Definition emailPattern : JS.regex :=
  let local c :=
    JS.letter c || JS.digit c || JS.oneOf ["."; "_"; "-"]%char c in
  let domain c :=
    JS.letter c || JS.digit c || JS.oneOf ["."; "-"]%char c in
  let az := JS.Class JS.letter in
  JS.Seq (JS.Plus (JS.Class local))
    (JS.Seq (JS.Class (Ascii.eqb "@"))
       (JS.Seq (JS.Plus (JS.Class domain))
          (JS.Seq (JS.Class (Ascii.eqb "."))
             (JS.Seq az (JS.Seq az (JS.Seq (JS.Opt az) (JS.Opt az))))))).

Definition email : InstanceValidatorType.t :=
  {| length := 1;
     call _ value _ := JS.test emailPattern (JS.trim value) |}.

(** [value === this[field]]; a missing [field] is the key [undefined]. *)
Definition confirm : InstanceValidatorType.t :=
  {| length := 2;
     call this value args :=
       bool_decide (this !! default "undefined" (args !! 0%nat) = Some value) |}.

Definition validators : ValidatorsType :=
  list_to_map
    [ ("required",
        {| message := "Поле обязательно для заполнения";
           validator := required |});
      ("minLen",
        {| message := "Минимум $1 символов"; validator := minLen |});
      ("maxLen",
        {| message := "Максимум $1 символов"; validator := maxLen |});
      ("number",
        {| message := "Значение должно быть числом";
           validator := number |});
      ("min", {| message := "Минимум $1"; validator := min |});
      ("max", {| message := "Максимум $1"; validator := max |});
      ("range",
        {| message := "Длинна строки должна быть от $1 до $2";
           validator := range |});
      ("email",
        {| message := "Не корректный E-mail адрес"; validator := email |});
      ("confirm",
        {| message := "Пароли дожны совпадать"; validator := confirm |}) ].

(** [Object.keys(this.validators).includes(validatorName)] *)
Definition hasValidator (V : ValidatorsType) (validatorName : string) : bool :=
  bool_decide (is_Some (V !! validatorName)).

Definition setMessage (V : ValidatorsType) (validatorName message : string)
  : result ValidatorsType :=
  match V !! validatorName with
  | Some entry =>
      Ok (<[validatorName :=
             {| message := message;
                validator := ValidatorEntry.validator entry |}]> V)
  | None => Throw (ValidatorNotDefined validatorName)
  end.

Definition addValidator (V : ValidatorsType) (name : string)
    (instance : ValidatorEntry.t) (replace : bool) : result ValidatorsType :=
  if hasValidator V name && negb replace
  then Throw (ValidatorAlreadyPresent name)
  else Ok (<[name := instance]> V).

(** [setAllMessages]: [messages] is the list of the properties of the
    argument in the order of [Object.keys].  [setMessage] changes the
    registry in place, so what was set before a throw stays set: the
    result is the registry after the call and what was thrown, if
    anything was. *)
Fixpoint setAllMessages (V : ValidatorsType) (messages : list (string * string))
  : ValidatorsType * option Error :=
  match messages with
  | [] => (V, None)
  | (key, message) :: rest =>
      match setMessage V key message with
      | Ok V' => setAllMessages V' rest
      | Throw e => (V, Some e)
      end
  end.

(** *** The instance *)

Record t : Type := Build {
  _fields : list ParsedFieldType.t;
  _errors : ErrorType;
  _errorMessageElements : gmap string HTMLDivElement.t;
  _valueFields : gmap string string;
  _submitButton_disabled : bool;
  _events : list EventType;
  _mode : EventType;
  _onErrorCallback : bool;
  _onSubmitCallback : bool;
  calls : list Call
}.

(** The form as the class reads it: [this._form[name]] is the input of
    that name, here its current [value]. *)
Abbreviation HTMLFormElement := (gmap string string).

Record OptionsType : Type := BuildOptions {
  mode : EventType;
  submitButtonSelector : string;
  fields : list FieldType.t
}.

(** **** Parsing *)

Definition _validatorArgumentsParser (args : option string) : list string :=
  match args with
  | Some s => JS.split "," s
  | None => []
  end.

Definition getNumberOfValidatorArguments (entry : ValidatorEntry.t) : Z :=
  Z.of_nat (length (validator entry)) - 1.

(** The callback of [map] in [_validatorsParser]: one segment of the
    rule string.  [elem.split(":")] is never empty, its first component
    is the name and its second one, when there is one, the parameters;
    further components are dropped. *)
Definition parseSegment (V : ValidatorsType) (elem : string)
  : result ParsedValidator.t :=
  let parts := JS.split ":" elem in
  let name := default "undefined" (parts !! 0%nat) in
  let rawParams := parts !! 1%nat in
  let parameters := _validatorArgumentsParser rawParams in
  match V !! name with
  | None => Throw (ValidatorNotFound name)
  | Some entry =>
      let argLen := getNumberOfValidatorArguments entry in
      if bool_decide (argLen ≠ Z.of_nat (List.length parameters))
      then Throw (ArgumentsMismatch name argLen (List.length parameters))
      else Ok (ParsedValidator.Build name parameters)
  end.

Definition _validatorsParser (V : ValidatorsType) (validators : string)
  : result (list ParsedValidator.t) :=
  mapThrow (parseSegment V) (JS.split "|" (JS.trim validators)).

(** The callback of [map] in [_fieldsParser]. *)
Definition parseField (V : ValidatorsType) (form : HTMLFormElement)
    (allFieldNames : list string) (field : FieldType.t)
  : result ParsedFieldType.t :=
  match form !! FieldType.name field with
  | None => Throw (FormFieldNotFound (FieldType.name field))
  | Some _ =>
      let syncMissing :=
        match FieldType.syncCall field with
        | Some s => truthy s && negb (bool_decide (s ∈ allFieldNames))
        | None => false
        end in
      if syncMissing
      then Throw (SyncFieldNotFound
                    (default "" (FieldType.syncCall field))
                    (FieldType.name field))
      else
        match _validatorsParser V (FieldType.valid field) with
        | Ok validators =>
            Ok (ParsedFieldType.Build (FieldType.name field)
                  (FieldType.syncCall field) validators)
        | Throw e => Throw (InField (FieldType.name field) e)
        end
  end.

Definition _fieldsParser (V : ValidatorsType) (form : HTMLFormElement)
    (fields : list FieldType.t) : result (list ParsedFieldType.t) :=
  let allFieldNames := FieldType.name <$> fields in
  mapThrow (parseField V form allFieldNames) fields.

(** One hidden, empty element per declared field name. *)
Definition _createErrorFields (fields : list ParsedFieldType.t)
  : gmap string HTMLDivElement.t :=
  foldl (fun elements name => <[name := HTMLDivElement.Build false ""]> elements)
    ∅ (ParsedFieldType.name <$> fields).

(** The constructor, called by [create].  [form] and [button] are what
    [document.querySelector] returns for [selector] and for
    [submitButtonSelector]: nothing, or the form, and nothing, or the
    button, here its [disabled]. *)
Definition new (V : ValidatorsType) (selector : string)
    (form : option HTMLFormElement) (button : option bool)
    (options : OptionsType) : result t :=
  match form, button with
  | None, _ => Throw (SelectorNotFound selector)
  | Some _, None => Throw ButtonNotFound
  | Some form, Some disabled =>
      match _fieldsParser V form (fields options) with
      | Throw e => Throw e
      | Ok parsed =>
          Ok {| _fields := parsed;
                _errors := ∅;
                _errorMessageElements := _createErrorFields parsed;
                _valueFields := ∅;
                _submitButton_disabled := disabled;
                _events :=
                  match parsed, mode options with
                  | [], _ | _, submit | _, all => [blur; input]
                  | _ :: _, m => [m]
                  end;
                _mode := mode options;
                _onErrorCallback := false;
                _onSubmitCallback := false;
                calls := [] |}
      end
  end.

Definition onError (this : t) : t :=
  {| _fields := _fields this; _errors := _errors this;
     _errorMessageElements := _errorMessageElements this;
     _valueFields := _valueFields this;
     _submitButton_disabled := _submitButton_disabled this;
     _events := _events this; _mode := _mode this;
     _onErrorCallback := true;
     _onSubmitCallback := _onSubmitCallback this;
     calls := calls this |}.

Definition onSubmit (this : t) : t :=
  {| _fields := _fields this; _errors := _errors this;
     _errorMessageElements := _errorMessageElements this;
     _valueFields := _valueFields this;
     _submitButton_disabled := _submitButton_disabled this;
     _events := _events this; _mode := _mode this;
     _onErrorCallback := _onErrorCallback this;
     _onSubmitCallback := true;
     calls := calls this |}.

(** **** Evaluation *)

Fixpoint getErrorMessageFrom (index : nat) (message : string)
    (params : list string) : string :=
  match params with
  | [] => message
  | val :: rest =>
      getErrorMessageFrom (S index)
        (JS.replace message ("$" +:+ JS.toString (index + 1)) val) rest
  end.

Definition _getErrorMessage (message : string) (params : list string)
  : string :=
  getErrorMessageFrom 0 message params.

(** [delete this._errors[field][rule]] inside [try]: nothing happens
    when the field has no entry.  Under an inherited name the property is
    deleted from the inherited member. *)
Definition deleteError (field rule : string) (errors : ErrorType)
  : ErrorType :=
  alter (delete rule) field errors.

(** [if (!this._errors[field]) this._errors[field] = {}] and
    [this._errors[field][rule] = errorMessage].  Under a name that is not
    inherited the inner object is created when the field has none.  Under
    an inherited name [this._errors[field]] is truthy, no own key is
    created, and the message becomes a property of the inherited member:
    the entry under that name, which [ownKeys] leaves out. *)
Definition setError (field rule errorMessage : string) (errors : ErrorType)
  : ErrorType :=
  <[field := <[rule := errorMessage]> (default ∅ (errors !! field))]> errors.

(** The body of the loop of [_eventHandler] for one rule whose registry
    entry is [entry]. *)
Definition checkValidator (valueFields : gmap string string)
    (value field : string) (isEmpty isRequired : bool)
    (val : ParsedValidator.t) (entry : ValidatorEntry.t)
    (errors : ErrorType) : ErrorType :=
  let isValid :=
    call (validator entry) valueFields value (ParsedValidator.parameters val) in
  let errorMessage :=
    _getErrorMessage (message entry) (ParsedValidator.parameters val) in
  if isValid || (isEmpty && negb isRequired)
  then deleteError field (ParsedValidator.name val) errors
  else setError field (ParsedValidator.name val) errorMessage errors.

(** The loop of [_eventHandler]. *)
Fixpoint checkValidators (V : ValidatorsType)
    (valueFields : gmap string string) (value field : string)
    (isEmpty isRequired : bool) (vals : list ParsedValidator.t)
    (errors : ErrorType) : option ErrorType :=
  match vals with
  | [] => Some errors
  | val :: rest =>
      match V !! ParsedValidator.name val with
      | None => None
      | Some entry =>
          checkValidators V valueFields value field isEmpty isRequired rest
            (checkValidator valueFields value field isEmpty isRequired
               val entry errors)
      end
  end.

(** [Object.keys(this._errors)]: the entries that are own keys. *)
Definition ownKeys (errors : ErrorType) : ErrorType :=
  filter (fun kv => JS.inherited (fst kv) = false) errors.

(** What [this._errors = {}] leaves to be read: the messages on the
    inherited members. *)
Definition onPrototype (errors : ErrorType) : ErrorType :=
  filter (fun kv => JS.inherited (fst kv) = true) errors.

(** The own keys whose inner object is empty are deleted.  (An entry
    under an inherited name that the deletions of the loop have emptied
    is dropped with them: it is the member without any message.) *)
Definition _removeEmptyErrorFields (errors : ErrorType) : ErrorType :=
  filter (fun kv => size (snd kv) ≠ 0%nat) errors.

Definition setVisible (visible : bool) (element : HTMLDivElement.t)
  : HTMLDivElement.t :=
  {| visible := visible; textContent := textContent element |}.

(** The inner loop of [_toggleErrorMessages], over the rule names of
    one field in their declared order. *)
Fixpoint toggleErrorMessage (isError : option (gmap string string))
    (order : list string) (errorElement : HTMLDivElement.t)
  : HTMLDivElement.t :=
  match order with
  | [] => errorElement
  | errorName :: rest =>
      match isError ≫= (fun inner => inner !! errorName) with
      | Some errorMessage =>
          if truthy errorMessage
          then {| visible := true; textContent := errorMessage |}
          else toggleErrorMessage isError rest (setVisible false errorElement)
      | None =>
          toggleErrorMessage isError rest (setVisible false errorElement)
      end
  end.

Definition order (field : ParsedFieldType.t) : list string :=
  ParsedValidator.name <$> ParsedFieldType.validators field.

Fixpoint _toggleErrorMessages (errors : ErrorType)
    (orderedList : list ParsedFieldType.t)
    (elements : gmap string HTMLDivElement.t)
  : option (gmap string HTMLDivElement.t) :=
  match orderedList with
  | [] => Some elements
  | elem :: rest =>
      match order elem with
      | [] => _toggleErrorMessages errors rest elements
      | _ :: _ =>
          match elements !! ParsedFieldType.name elem with
          | None => None
          | Some errorElement =>
              _toggleErrorMessages errors rest
                (<[ParsedFieldType.name elem :=
                     toggleErrorMessage
                       (errors !! ParsedFieldType.name elem)
                       (order elem) errorElement]> elements)
          end
      end
  end.

Definition isRequired (field : ParsedFieldType.t) : bool :=
  existsb (fun v => bool_decide (ParsedValidator.name v = "required"))
    (ParsedFieldType.validators field).

Definition isEmpty (value : string) : bool :=
  (String.length (JS.trim value) =? 0)%nat.

(** [_eventHandler] with a string for [value].  The error callback is
    called when [this._errors[field.name]] is truthy: when the field has
    an entry, and always under an inherited name, where it is the
    inherited member; [errors] is then what that object holds. *)
Definition _eventHandler (V : ValidatorsType) (this : t) (value : string)
    (field : ParsedFieldType.t) : option t :=
  let name := ParsedFieldType.name field in
  errors ← checkValidators V (_valueFields this) value name
             (isEmpty value) (isRequired field)
             (ParsedFieldType.validators field) (_errors this);
  let valueFields := <[name := value]> (_valueFields this) in
  let errors := _removeEmptyErrorFields errors in
  elements ← _toggleErrorMessages errors (_fields this)
               (_errorMessageElements this);
  Some
    {| _fields := _fields this;
       _errors := errors;
       _errorMessageElements := elements;
       _valueFields := valueFields;
       _submitButton_disabled := _submitButton_disabled this;
       _events := _events this;
       _mode := _mode this;
       _onErrorCallback := _onErrorCallback this;
       _onSubmitCallback := _onSubmitCallback this;
       calls :=
         if (JS.inherited name || bool_decide (is_Some (errors !! name)))
            && _onErrorCallback this
         then calls this ++
                [OnErrorCallback value name (default ∅ (errors !! name))]
         else calls this |}.

(** [this._valueFields[vname] ?? "d1111"]: the recorded value; without
    one, under an inherited name, the inherited member, which is not
    nullish, so that [_eventHandler] is called with it and throws at
    [value.trim()] before anything else; and otherwise the sentinel. *)
Definition _syncCall (V : ValidatorsType) (this : t) (vname : string)
  : option t :=
  match
    List.find (fun f => bool_decide (ParsedFieldType.name f = vname))
      (_fields this)
  with
  | Some field =>
      match _valueFields this !! vname with
      | Some value => _eventHandler V this value field
      | None =>
          if JS.inherited vname then None
          else _eventHandler V this "d1111" field
      end
  | None => Some this
  end.

(** The listener that [_setEvents] adds to the input of [field] for
    each event of [_events], called with [event.target.value]. *)
Definition inputListener (V : ValidatorsType) (this : t)
    (field : ParsedFieldType.t) (value : string) : option t :=
  this ← _eventHandler V this value field;
  match ParsedFieldType.syncCall field with
  | Some syncCall =>
      if truthy syncCall then _syncCall V this syncCall else Some this
  | None => Some this
  end.

(** [isError]: [Boolean(Object.keys(this._errors).length)]. *)
Definition isError (this : t) : bool :=
  negb (size (ownKeys (_errors this)) =? 0)%nat.

Definition withCalls (this : t) (calls : list Call) : t :=
  {| _fields := _fields this; _errors := _errors this;
     _errorMessageElements := _errorMessageElements this;
     _valueFields := _valueFields this;
     _submitButton_disabled := _submitButton_disabled this;
     _events := _events this; _mode := _mode this;
     _onErrorCallback := _onErrorCallback this;
     _onSubmitCallback := _onSubmitCallback this;
     calls := calls |}.

(** [forEach] of the submit listener: every field with the value its
    input holds. *)
Fixpoint submitFields (V : ValidatorsType) (form : HTMLFormElement)
    (fields : list ParsedFieldType.t) (this : t) : option t :=
  match fields with
  | [] => Some this
  | field :: rest =>
      value ← form !! ParsedFieldType.name field;
      this ← _eventHandler V this value field;
      submitFields V form rest this
  end.

(** The listener that [_handleSubmit] adds to the form. *)
Definition submitListener (V : ValidatorsType) (this : t)
    (form : HTMLFormElement) : option t :=
  this ← submitFields V form (_fields this) this;
  let this :=
    if isError this then withCalls this (calls this ++ [preventDefault])
    else this in
  Some
    (if negb (isError this) && _onSubmitCallback this
     then withCalls this (calls this ++ [OnSubmitCallback (_valueFields this)])
     else this).

(** The loop of [resetAllErrors]. *)
Fixpoint hideErrorMessages (names : list string)
    (elements : gmap string HTMLDivElement.t)
  : option (gmap string HTMLDivElement.t) :=
  match names with
  | [] => Some elements
  | name :: rest =>
      element ← elements !! name;
      hideErrorMessages rest (<[name := setVisible false element]> elements)
  end.

(** [this._errors = {}] gives an object without own keys; what the
    inherited members carry stays on them. *)
Definition resetAllErrors (this : t) : option t :=
  elements ← hideErrorMessages (ParsedFieldType.name <$> _fields this)
               (_errorMessageElements this);
  Some
    {| _fields := _fields this;
       _errors := onPrototype (_errors this);
       _errorMessageElements := elements;
       _valueFields := _valueFields this;
       _submitButton_disabled := false;
       _events := _events this;
       _mode := _mode this;
       _onErrorCallback := _onErrorCallback this;
       _onSubmitCallback := _onSubmitCallback this;
       calls := calls this |}.

End Validator.

(** * Properties *)

Import Validator.

(** ** Observations used in the statements *)

(** [errors[field]?.[rule]]: the message recorded for a rule of a field. *)
Definition errorOf (errors : ErrorType) (field rule : string) : option string :=
  errors !! field ≫= fun inner => inner !! rule.

(** The condition under which the loop of [_eventHandler] clears the
    entry of a rule instead of setting it. *)
Definition passes (valueFields : gmap string string) (value : string)
    (field : ParsedFieldType.t) (val : ParsedValidator.t)
    (entry : ValidatorEntry.t) : bool :=
  InstanceValidatorType.call (ValidatorEntry.validator entry) valueFields value
    (ParsedValidator.parameters val)
  || (isEmpty value && negb (isRequired field)).


(** The element of a field and what it shows. *)
Definition surfaced (this : Validator.t) (field : string) : option string :=
  match _errorMessageElements this !! field with
  | Some element =>
      if HTMLDivElement.visible element
      then Some (HTMLDivElement.textContent element)
      else None
  | None => None
  end.

(** What a segment supplies: the text before its first colon, and the
    comma-separated items between its first and its second colon. *)
Definition segmentName (elem : string) : string :=
  default "undefined" (JS.split ":" elem !! 0%nat).

Definition segmentParameters (elem : string) : list string :=
  _validatorArgumentsParser (JS.split ":" elem !! 1%nat).

(** The segments of a rule string. *)
Definition segments (validators : string) : list string :=
  JS.split "|" (JS.trim validators).

(** The text before the first [sep] of a string and, when there is a
    [sep], all the text after it. *)
Fixpoint splitFirst (sep : ascii) (s : string) : string * option string :=
  match s with
  | EmptyString => (EmptyString, None)
  | String c s' =>
      if Ascii.eqb c sep then (EmptyString, Some s')
      else (String c (splitFirst sep s').1, (splitFirst sep s').2)
  end.

(** A segment as the specification reads it: split on the first colon
    into the rule name and an optional comma-delimited parameter list,
    which is all the text after that colon. *)
Definition specSegmentName (elem : string) : string :=
  (splitFirst ":" elem).1.

Definition specSegmentParameters (elem : string) : list string :=
  match (splitFirst ":" elem).2 with
  | Some rest => JS.split "," rest
  | None => []
  end.

(** The parameters that the parser takes from a segment: the
    comma-separated items of the text between its first colon and its
    second one, or the end.  Text after a second colon is not looked
    at. *)
Definition suppliedParameters (elem : string) : list string :=
  match (splitFirst ":" elem).2 with
  | Some rest => JS.split "," (splitFirst ":" rest).1
  | None => []
  end.

(** The arity that a rule declares: the number of parameters of its
    predicate after the value. *)
Definition declaredArity (entry : ValidatorEntry.t) : Z :=
  Z.of_nat (InstanceValidatorType.length (ValidatorEntry.validator entry)) - 1.




(** ** The validators of the examples *)

(** A validator as the constructor leaves it, its two callbacks
    registered by [onError] and [onSubmit]. *)
Definition started (mode : EventType) (fields : list ParsedFieldType.t)
  : Validator.t :=
  {| _fields := fields;
     _errors := ∅;
     _errorMessageElements := _createErrorFields fields;
     _valueFields := ∅;
     _submitButton_disabled := false;
     _events :=
       match fields, mode with
       | [], _ | _, submit | _, all => [blur; input]
       | _ :: _, m => [m]
       end;
     _mode := mode;
     _onErrorCallback := true;
     _onSubmitCallback := true;
     calls := [] |}.

(** The state that the constructor leaves: no callback is registered
    yet. *)
Definition constructed (mode : EventType) (fields : list ParsedFieldType.t)
  : Validator.t :=
  {| _fields := fields;
     _errors := ∅;
     _errorMessageElements := _createErrorFields fields;
     _valueFields := ∅;
     _submitButton_disabled := false;
     _events :=
       match fields, mode with
       | [], _ | _, submit | _, all => [blur; input]
       | _ :: _, m => [m]
       end;
     _mode := mode;
     _onErrorCallback := false;
     _onSubmitCallback := false;
     calls := [] |}.

Definition rule (name : string) (parameters : list string)
  : ParsedValidator.t :=
  ParsedValidator.Build name parameters.

(** The fields that [index.js] declares. *)
Definition nameField : ParsedFieldType.t :=
  ParsedFieldType.Build "name" None
    [rule "required" []; rule "minLen" ["4"]; rule "maxLen" ["5"]].

Definition telField : ParsedFieldType.t :=
  ParsedFieldType.Build "tel" None [rule "required" []; rule "minLen" ["4"]].

Definition ageField : ParsedFieldType.t :=
  ParsedFieldType.Build "age" None
    [rule "required" []; rule "number" []; rule "min" ["10"];
     rule "max" ["32"]].

Definition emailField : ParsedFieldType.t :=
  ParsedFieldType.Build "email" None [rule "email" []].

Definition passwordField : ParsedFieldType.t :=
  ParsedFieldType.Build "password" (Some "confirm")
    [rule "required" []; rule "minLen" ["5"]].

Definition confirmField : ParsedFieldType.t :=
  ParsedFieldType.Build "confirm" None
    [rule "required" []; rule "confirm" ["password"]].

Definition indexOptions : OptionsType :=
  {| mode := input;
     submitButtonSelector := ".form__submit";
     fields :=
       [ FieldType.Build "name" "required|minLen:4|maxLen:5" None;
         FieldType.Build "tel" "required|minLen:4" None;
         FieldType.Build "age" "required|number|min:10|max:32" None;
         FieldType.Build "email" "email" None;
         FieldType.Build "password" "required|minLen:5" (Some "confirm");
         FieldType.Build "confirm" "required|confirm:password" None ] |}.

Definition indexFields : list ParsedFieldType.t :=
  [nameField; telField; ageField; emailField; passwordField; confirmField].

(** A form with the inputs of [index.js], all empty. *)
Definition indexForm : HTMLFormElement :=
  list_to_map
    [("name", ""); ("tel", ""); ("age", ""); ("email", "");
     ("password", ""); ("confirm", "")].






(** Fields named like members that every object inherits. *)
Definition constructorField : ParsedFieldType.t :=
  ParsedFieldType.Build "constructor" None [rule "required" []].




(** A state with a recorded error, a visible message and a disabled
    button. *)
Definition failedName : Validator.t :=
  {| _fields := [nameField; ageField];
     _errors := {[ "name" := {[ "minLen" := "Минимум 4 символов" ]} ]};
     _errorMessageElements :=
       {[ "name" := HTMLDivElement.Build true "Минимум 4 символов";
          "age" := HTMLDivElement.Build false "" ]};
     _valueFields := {[ "name" := "ab" ]};
     _submitButton_disabled := true;
     _events := [input];
     _mode := input;
     _onErrorCallback := true;
     _onSubmitCallback := true;
     calls :=
       [OnErrorCallback "ab" "name" {[ "minLen" := "Минимум 4 символов" ]}] |}.


(** A rule on the number of digits of the value, and the registry after
    the host has put it in the place of [minLen] with [addValidator]. *)
Definition minDigits : InstanceValidatorType.t :=
  {| InstanceValidatorType.length := 2;
     InstanceValidatorType.call _ value args :=
       let digits := List.filter JS.digit (String.list_ascii_of_string value) in
       JS.ge (JS.ofLength (List.length digits)) (JS.Number (args !! 0%nat)) |}.

Definition digitRegistry : ValidatorsType :=
  <["minLen" := ValidatorEntry.Build "Минимум $1 цифр" minDigits]>
    Validator.validators.


(** A value typed into the input of a field, when the state is there. *)
Definition typed (V : ValidatorsType) (field : ParsedFieldType.t)
    (value : string) (this : option Validator.t) : option Validator.t :=
  this ≫= fun this => inputListener V this field value.

(** The two submissions of the specification: a form whose values are
    too short and too small, and a form whose values are valid. *)
Definition rejectedForm : HTMLFormElement :=
  list_to_map [("name", "ab"); ("age", "5")].

Definition acceptedForm : HTMLFormElement :=
  list_to_map [("name", "abcd"); ("age", "15")].

(** ** The runs of a validator *)

(** What happens to a validator after its construction: a value typed
    into the input of a declared field (no input is listened to in the
    mode [submit]), a submission, a reset, the registration of a
    callback. *)
Inductive step (V : ValidatorsType) : Validator.t → Validator.t → Prop :=
| step_input this field value this' :
    _mode this ≠ submit →
    field ∈ _fields this →
    inputListener V this field value = Some this' →
    step V this this'
| step_submit this form this' :
    submitListener V this form = Some this' →
    step V this this'
| step_reset this this' :
    resetAllErrors this = Some this' →
    step V this this'
| step_onError this : step V this (onError this)
| step_onSubmit this : step V this (onSubmit this).

(** ** The factory *)

(** The static fields of the class.  An instance lives where the class
    keeps it, in [instances], under the selector it was created for. *)
Module Static.
Record t : Type := Build {
  validators : ValidatorsType;
  instances : list (string * Validator.t);
  callConstructorOfFactory : bool
}.
End Static.

(** The static fields when the class is loaded. *)
Definition loaded : Static.t :=
  {| Static.validators := Validator.validators;
     Static.instances := [];
     Static.callConstructorOfFactory := false |}.

(** What the constructor throws: its own refusal, or what [new] throws. *)
Inductive ConstructorError : Type :=
| CallOnlyFactory
| Thrown (e : Error).

(** The constructor with its guard on [callConstructorOfFactory]. *)
Definition construct (S : Static.t) (selector : string)
    (form : option HTMLFormElement) (button : option bool)
    (options : OptionsType) : ConstructorError + Validator.t :=
  if negb (Static.callConstructorOfFactory S) then inl CallOnlyFactory
  else
    match new (Static.validators S) selector form button options with
    | Ok this => inr this
    | Throw e => inl (Thrown e)
    end.

Definition withFlag (S : Static.t) (flag : bool) : Static.t :=
  {| Static.validators := Static.validators S;
     Static.instances := Static.instances S;
     Static.callConstructorOfFactory := flag |}.

(** [create]: the static fields after the call, and the instance that is
    returned or what is thrown.  The flag is set before the constructor is
    called and cleared after it has returned; a throw of the constructor
    leaves it set. *)
Definition create (S : Static.t) (selector : string)
    (form : option HTMLFormElement) (button : option bool)
    (options : OptionsType) : Static.t * (ConstructorError + Validator.t) :=
  match
    List.find (fun ins => bool_decide (selector = fst ins)) (Static.instances S)
  with
  | Some instance => (S, inr (snd instance))
  | None =>
      match construct (withFlag S true) selector form button options with
      | inr newInstance =>
          ({| Static.validators := Static.validators S;
              Static.instances :=
                Static.instances S ++ [(selector, newInstance)];
              Static.callConstructorOfFactory := false |},
           inr newInstance)
      | inl e => (withFlag S true, inl e)
      end
  end.

(** ** Rendering a pipeline, to read it back *)

Abbreviation chars := String.list_ascii_of_string.

Fixpoint join (sep : ascii) (l : list string) : string :=
  match l with
  | [] => ""
  | [x] => x
  | x :: rest => x +:+ String sep (join sep rest)
  end.

Definition renderRule (val : ParsedValidator.t) : string :=
  match ParsedValidator.parameters val with
  | [] => ParsedValidator.name val
  | _ :: _ =>
      ParsedValidator.name val
      +:+ String ":" (join "," (ParsedValidator.parameters val))
  end.

Definition renderRules (vals : list ParsedValidator.t) : string :=
  join "|" (renderRule <$> vals).

(** ** The language of a pattern *)

Inductive Matches : JS.regex → list ascii → Prop :=
| Matches_Eps : Matches JS.Eps []
| Matches_Class p c : p c = true → Matches (JS.Class p) [c]
| Matches_Seq r1 r2 s1 s2 :
    Matches r1 s1 → Matches r2 s2 → Matches (JS.Seq r1 r2) (s1 ++ s2)
| Matches_Alt_l r1 r2 s : Matches r1 s → Matches (JS.Alt r1 r2) s
| Matches_Alt_r r1 r2 s : Matches r2 s → Matches (JS.Alt r1 r2) s
| Matches_Star_nil r : Matches (JS.Star r) []
| Matches_Star_cons r s1 s2 :
    Matches r s1 → Matches (JS.Star r) s2 → Matches (JS.Star r) (s1 ++ s2).

(** The three classes of the pattern of [email]. *)
Definition emailLocal (c : ascii) : bool :=
  JS.letter c || JS.digit c || JS.oneOf ["."; "_"; "-"]%char c.

Definition emailDomain (c : ascii) : bool :=
  JS.letter c || JS.digit c || JS.oneOf ["."; "-"]%char c.

(** ** What the page shows *)

(** The message that [_toggleErrorMessages] makes a field show: the entry
    of the first rule, in the declared order, that is a non-empty text. *)
Fixpoint firstShown (errors : ErrorType) (field : string)
    (order : list string) : option string :=
  match order with
  | [] => None
  | r :: rest =>
      match errorOf errors field r with
      | Some msg =>
          if truthy msg then Some msg else firstShown errors field rest
      | None => firstShown errors field rest
      end
  end.

(** Every declared field whose name is not one that every object
    inherits shows what [_errors] has for it. *)
Definition displaysStore (this : Validator.t) : Prop :=
  ∀ f, f ∈ _fields this → JS.inherited (ParsedFieldType.name f) = false →
    surfaced this (ParsedFieldType.name f) =
      firstShown (_errors this) (ParsedFieldType.name f) (order f).


(** ** The calls of a submission *)


(** ** What a validator keeps *)

(** [this'] is [this] some operations later: the declaration is the same,
    nothing was taken back, and the snapshot has grown by declared
    fields only. *)
Record extends (this this' : Validator.t) : Prop := {
  extends_fields : _fields this' = _fields this;
  extends_mode : _mode this' = _mode this;
  extends_events : _events this' = _events this;
  extends_button :
    _submitButton_disabled this' = true → _submitButton_disabled this = true;
  extends_onError : _onErrorCallback this = true → _onErrorCallback this' = true;
  extends_onSubmit :
    _onSubmitCallback this = true → _onSubmitCallback this' = true;
  extends_calls : ∃ cs, calls this' = calls this ++ cs;
  extends_values :
    ∀ g, is_Some (_valueFields this !! g) → is_Some (_valueFields this' !! g);
  extends_declared :
    ∀ g, is_Some (_valueFields this' !! g) →
      is_Some (_valueFields this !! g) ∨
      g ∈ ParsedFieldType.name <$> _fields this
}.

(** ** The error store *)

Section ErrorStore.

Implicit Types (errors : ErrorType) (field rule : string).





Lemma lookup_removeEmpty errors g inner :
  _removeEmptyErrorFields errors !! g = Some inner ↔
  errors !! g = Some inner ∧ inner ≠ ∅.
Proof.
  unfold _removeEmptyErrorFields.
  rewrite map_lookup_filter_Some. simpl.
  by rewrite map_size_non_empty_iff.
Qed.


(** A field is a key of the pruned store exactly when one of its rules
    has a message. *)
Lemma removeEmpty_is_Some errors g :
  is_Some (_removeEmptyErrorFields errors !! g) ↔
  ∃ r, is_Some (errorOf errors g r).
Proof.
  split.
  - intros [inner [E Hne]%lookup_removeEmpty].
    apply map_choose in Hne as (r & msg & Hr).
    exists r. unfold errorOf. rewrite E. simpl. eauto.
  - intros [r [msg Hr]]. unfold errorOf in Hr.
    destruct (errors !! g) as [inner|] eqn:E; [|done]. simpl in Hr.
    exists inner. apply lookup_removeEmpty. split; [done|].
    intros ->. by rewrite lookup_empty in Hr.
Qed.


Lemma removeEmpty_id errors :
  (∀ g inner, errors !! g = Some inner → inner ≠ ∅) →
  _removeEmptyErrorFields errors = errors.
Proof.
  intros H. apply map_eq. intros g. apply option_eq. intros inner.
  rewrite lookup_removeEmpty. split; [by intros [? ?]|]. eauto.
Qed.

Lemma lookup_onPrototype errors g :
  onPrototype errors !! g = if JS.inherited g then errors !! g else None.
Proof.
  unfold onPrototype. destruct (JS.inherited g) eqn:E.
  - destruct (errors !! g) as [inner|] eqn:El.
    + by apply map_lookup_filter_Some.
    + apply map_lookup_filter_None. by left.
  - apply map_lookup_filter_None. right. simpl. intros inner _. congruence.
Qed.

Lemma lookup_ownKeys errors g :
  ownKeys errors !! g = if JS.inherited g then None else errors !! g.
Proof.
  unfold ownKeys. destruct (JS.inherited g) eqn:E.
  - apply map_lookup_filter_None. right. simpl. intros inner _. congruence.
  - destruct (errors !! g) as [inner|] eqn:El.
    + by apply map_lookup_filter_Some.
    + apply map_lookup_filter_None. by left.
Qed.

Lemma errorOf_onPrototype errors g r :
  errorOf (onPrototype errors) g r =
    if JS.inherited g then errorOf errors g r else None.
Proof.
  unfold errorOf. rewrite lookup_onPrototype. by destruct (JS.inherited g).
Qed.

Lemma ownKeys_onPrototype errors : ownKeys (onPrototype errors) = ∅.
Proof.
  apply map_eq. intros g.
  rewrite lookup_ownKeys, lookup_onPrototype, lookup_empty.
  by destruct (JS.inherited g).
Qed.

Lemma isError_spec (this : Validator.t) :
  isError this = true ↔
  ∃ g, JS.inherited g = false ∧ is_Some (_errors this !! g).
Proof.
  unfold isError. rewrite negb_true_iff, Nat.eqb_neq, map_size_non_empty_iff.
  split.
  - intros (g & inner & H)%map_choose. rewrite lookup_ownKeys in H.
    exists g. destruct (JS.inherited g); [done|]. by eauto.
  - intros (g & Hg & [inner H]) Hempty.
    assert (ownKeys (_errors this) !! g = Some inner) as Hown
      by by rewrite lookup_ownKeys, Hg.
    by rewrite Hempty, lookup_empty in Hown.
Qed.

End ErrorStore.

(** ** The loop over the rules of a field *)

Section CheckValidators.

Context (V : ValidatorsType) (valueFields : gmap string string).
Context (value : string) (field : ParsedFieldType.t).

Local Abbreviation name := (ParsedFieldType.name field).
Local Abbreviation run :=
  (checkValidators V valueFields value name (isEmpty value) (isRequired field)).










End CheckValidators.

(** ** Which message an error element shows *)

Section Toggle.

Implicit Types (errors : ErrorType) (element : HTMLDivElement.t).


Lemma toggleErrorMessage_hidden errors g order element :
  (∀ r m, r ∈ order → errorOf errors g r = Some m → truthy m = false) →
  toggleErrorMessage (errors !! g) order (setVisible false element) =
    setVisible false element.
Proof.
  induction order as [|r order IH]; intros Hall; simpl; [done|].
  assert (∀ r' m, r' ∈ order → errorOf errors g r' = Some m →
    truthy m = false) as Hall' by (intros r' m ?; apply Hall; by right).
  fold (errorOf errors g r).
  destruct (errorOf errors g r) as [m|] eqn:E.
  - rewrite (Hall r m) by (by left || done). by apply IH.
  - by apply IH.
Qed.

(** Without such a rule the element is hidden and keeps its text. *)
Lemma toggleErrorMessage_none errors g order element :
  order ≠ [] →
  (∀ r m, r ∈ order → errorOf errors g r = Some m → truthy m = false) →
  toggleErrorMessage (errors !! g) order element = setVisible false element.
Proof.
  intros Hne Hall.
  destruct order as [|r order]; [done|]. simpl.
  assert (∀ r' m, r' ∈ order → errorOf errors g r' = Some m →
    truthy m = false) as Hall' by (intros r' m ?; apply Hall; by right).
  fold (errorOf errors g r).
  destruct (errorOf errors g r) as [m|] eqn:E.
  - rewrite (Hall r m) by (by left || done).
    by apply toggleErrorMessage_hidden.
  - by apply toggleErrorMessage_hidden.
Qed.





End Toggle.

(** ** One evaluation of a field *)

Section EventHandler.

Context (V : ValidatorsType).











End EventHandler.

(** ** The rule-string parser *)

Section Parser.

Context (V : ValidatorsType).

Lemma split_cons sep s : ∃ h t, JS.split sep s = h :: t.
Proof.
  induction s as [|c s (h & t & IH)]; simpl; [by eauto|].
  destruct (Ascii.eqb c sep); [by eauto|]. rewrite IH. by eauto.
Qed.

Lemma split_sep_head sep s :
  JS.split sep (String sep s) = "" :: JS.split sep s.
Proof. simpl. by rewrite Ascii.eqb_refl. Qed.

Lemma split_sep_last sep s :
  JS.split sep (s +:+ String sep "") = JS.split sep s ++ [""].
Proof.
  induction s as [|c s IH]; simpl.
  - by rewrite Ascii.eqb_refl.
  - destruct (Ascii.eqb c sep); rewrite IH; [done|].
    destruct (split_cons sep s) as (h & t & ->). done.
Qed.

Lemma segmentName_empty : segmentName "" = "".
Proof. reflexivity. Qed.

Lemma mapThrow_Ok {A B} (f : A → result B) l l' :
  mapThrow f l = Ok l' ↔ Forall2 (fun x y => f x = Ok y) l l'.
Proof.
  revert l'. induction l as [|x l IH]; intros l'; simpl.
  - split; [by intros [= <-]; constructor | by inversion 1].
  - split.
    + destruct (f x) as [y|e] eqn:E; [|done].
      destruct (mapThrow f l) as [ys|e'] eqn:E'; [|done].
      intros [= <-]. constructor; [done | by apply IH].
    + inversion 1 as [|? y ? ys Hy Hys]; subst.
      apply IH in Hys. by rewrite Hy, Hys.
Qed.

(** The traversal throws what the first failing element throws. *)
Lemma mapThrow_Throw {A B} (f : A → result B) pre x post e :
  Forall (fun x => ∃ y, f x = Ok y) pre →
  f x = Throw e →
  mapThrow f (pre ++ x :: post) = Throw e.
Proof.
  intros Hpre Hx. induction Hpre as [|x' pre [y Hy] _ IH]; simpl.
  - by rewrite Hx.
  - by rewrite Hy, IH.
Qed.

Lemma mapThrow_total {A B} (f : A → result B) l :
  (∃ l', mapThrow f l = Ok l') ∨
  (∃ pre x post e,
      l = pre ++ x :: post ∧ Forall (fun x => ∃ y, f x = Ok y) pre ∧
      f x = Throw e ∧ mapThrow f l = Throw e).
Proof.
  induction l as [|x l IH]; simpl; [by left; eauto|].
  destruct (f x) as [y|e] eqn:E.
  - destruct IH as [[l' ->]|(pre & x' & post & e & -> & Hpre & Hx & ->)].
    + left. eauto.
    + right. exists (x :: pre), x', post, e. split_and!; try done.
      constructor; eauto.
  - right. by exists [], x, l, e.
Qed.

Lemma parseSegment_unknown elem :
  V !! segmentName elem = None →
  parseSegment V elem = Throw (ValidatorNotFound (segmentName elem)).
Proof. unfold parseSegment, segmentName. by intros ->. Qed.

Lemma parseSegment_known elem entry :
  V !! segmentName elem = Some entry →
  parseSegment V elem =
    if bool_decide (getNumberOfValidatorArguments entry =
                    Z.of_nat (List.length (segmentParameters elem)))
    then Ok (ParsedValidator.Build (segmentName elem) (segmentParameters elem))
    else Throw (ArgumentsMismatch (segmentName elem)
                  (getNumberOfValidatorArguments entry)
                  (List.length (segmentParameters elem))).
Proof.
  unfold parseSegment, segmentName, segmentParameters. intros ->.
  by repeat case_bool_decide.
Qed.

Lemma parseSegment_Ok elem v :
  parseSegment V elem = Ok v →
  ParsedValidator.name v = segmentName elem ∧
  ParsedValidator.parameters v = segmentParameters elem ∧
  ∃ entry, V !! segmentName elem = Some entry ∧
    Z.of_nat (List.length (segmentParameters elem)) =
      getNumberOfValidatorArguments entry.
Proof.
  destruct (V !! segmentName elem) as [entry|] eqn:E.
  - rewrite (parseSegment_known _ _ E). case_bool_decide; [|done].
    intros [= <-]. eauto.
  - by rewrite (parseSegment_unknown _ E).
Qed.

(** [split] in terms of the first separator. *)
Lemma split_splitFirst sep s :
  JS.split sep s =
    match (splitFirst sep s).2 with
    | Some rest => (splitFirst sep s).1 :: JS.split sep rest
    | None => [(splitFirst sep s).1]
    end.
Proof.
  induction s as [|c s IH]; [done|]. simpl.
  destruct (Ascii.eqb c sep); [done|]. simpl. rewrite IH.
  by destruct (splitFirst sep s).2.
Qed.

Lemma splitFirst_None sep s :
  (splitFirst sep s).2 = None → (splitFirst sep s).1 = s.
Proof.
  induction s as [|c s IH]; [done|]. simpl.
  destruct (Ascii.eqb c sep); [done|]. simpl. intros H. by rewrite IH.
Qed.

Lemma segmentName_spec elem : segmentName elem = specSegmentName elem.
Proof.
  unfold segmentName, specSegmentName. rewrite split_splitFirst.
  by destruct (splitFirst ":" elem).2.
Qed.

Lemma segmentParameters_supplied elem :
  segmentParameters elem = suppliedParameters elem.
Proof.
  unfold segmentParameters, suppliedParameters. rewrite split_splitFirst.
  destruct (splitFirst ":" elem).2 as [rest|]; [|done]. simpl.
  rewrite (split_splitFirst ":" rest).
  by destruct (splitFirst ":" rest).2.
Qed.

Lemma suppliedParameters_spec elem :
  (∀ rest, (splitFirst ":" elem).2 = Some rest →
           (splitFirst ":" rest).2 = None) →
  suppliedParameters elem = specSegmentParameters elem.
Proof.
  unfold suppliedParameters, specSegmentParameters. intros H.
  destruct (splitFirst ":" elem).2 as [rest|]; [|done].
  by rewrite (splitFirst_None ":" rest (H rest eq_refl)).
Qed.


End Parser.

(** ** Listeners, submission and reset *)

Section Operations.

Context (V : ValidatorsType).




(** A synchronisation that returns has evaluated a declared field of that
    name, or there is none. *)
Lemma syncCall_inv this vname this' :
  _syncCall V this vname = Some this' →
  this' = this ∨
  ∃ field value,
    field ∈ _fields this ∧ ParsedFieldType.name field = vname ∧
    _eventHandler V this value field = Some this'.
Proof.
  unfold _syncCall.
  destruct (List.find _ _) as [d|] eqn:E; [|intros [= <-]; by left].
  apply find_some in E as [Hd%list_elem_of_In Hn%bool_decide_eq_true].
  destruct (_valueFields this !! vname) as [value|].
  - intros H. right. by exists d, value.
  - destruct (JS.inherited vname); [done|].
    intros H. right. by exists d, "d1111".
Qed.







Lemma hideErrorMessages_spec names elements :
  (∀ n, n ∈ names → is_Some (elements !! n)) →
  ∃ elements',
    hideErrorMessages names elements = Some elements' ∧
    ∀ n,
      elements' !! n =
        if decide (n ∈ names) then setVisible false <$> elements !! n
        else elements !! n.
Proof.
  revert elements.
  induction names as [|name names IH]; intros elements Hel; simpl.
  - by exists elements.
  - destruct (Hel name) as [el Hn]; [by left|]. rewrite Hn. simpl.
    destruct (IH (<[name := setVisible false el]> elements))
      as (elements' & -> & Hlookup).
    { intros n ?. apply lookup_insert_is_Some'. right. apply Hel. by right. }
    exists elements'. split; [done|]. intros n. rewrite Hlookup.
    destruct (decide (n = name)) as [->|Hne].
    + rewrite lookup_insert_eq, Hn.
      rewrite (decide_True (P := name ∈ name :: names)) by by left.
      by case_decide.
    + rewrite lookup_insert_ne by done.
      repeat case_decide; try done.
      * exfalso. match goal with H : ¬ _ |- _ => apply H end. by right.
      * by match goal with H : _ ∈ _ :: _ |- _ =>
          apply elem_of_cons in H as [?|?] end.
Qed.

End Operations.

(** ** The runs keep the state consistent *)

Section Runs.

Context (V : ValidatorsType).








End Runs.

(** ** Construction *)

Section Construction.

Context (V : ValidatorsType).

Lemma parseField_Ok form allFieldNames d p :
  parseField V form allFieldNames d = Ok p →
  ParsedFieldType.name p = FieldType.name d ∧
  ParsedFieldType.syncCall p = FieldType.syncCall d ∧
  _validatorsParser V (FieldType.valid d) = Ok (ParsedFieldType.validators p) ∧
  (∀ t, FieldType.syncCall d = Some t → truthy t = true → t ∈ allFieldNames).
Proof.
  unfold parseField.
  destruct (form !! FieldType.name d); [|done].
  destruct (FieldType.syncCall d) as [sc|] eqn:Es.
  - destruct (truthy sc) eqn:Et; simpl.
    + case_bool_decide as Hin; simpl; [|done].
      destruct (_validatorsParser V (FieldType.valid d)); [|done].
      intros [= <-]. simpl. split_and!; try done. by intros ? [= <-].
    + destruct (_validatorsParser V (FieldType.valid d)); [|done].
      intros [= <-]. simpl. split_and!; try done. intros ? [= <-]. congruence.
  - destruct (_validatorsParser V (FieldType.valid d)); [|done].
    intros [= <-]. simpl. split_and!; done.
Qed.



End Construction.

(** ** Reading the conditions of the loop *)

Section Conditions.

Lemma isEmpty_true value :
  isEmpty value = true ↔ String.length (JS.trim value) = 0%nat.
Proof. unfold isEmpty. apply Nat.eqb_eq. Qed.

Lemma isEmpty_trim value : isEmpty value = true → JS.trim value = "".
Proof. rewrite isEmpty_true. by destruct (JS.trim value). Qed.








End Conditions.

(** ** What an evaluation leaves in a consistent state *)

Section Evaluated.

Context (V : ValidatorsType).



End Evaluated.

(** * The parser rejects unknown rules and wrong parameter counts *)

(** C7, counterexample.  The rule string [minLen|nope] has the segment
    [nope], whose name is not registered, and does not parse; but what
    is thrown is the arity mismatch of the segment before it, not an
    unknown-rule error. *)
Lemma unknown_rule_after_arity_mismatch :
  "nope" ∈ segments "minLen|nope" ∧
  Validator.validators !! segmentName "nope" = None ∧
  _validatorsParser Validator.validators "minLen|nope" =
    Throw (ArgumentsMismatch "minLen" 1 0) ∧
  ¬ ∃ name,
      _validatorsParser Validator.validators "minLen|nope" =
        Throw (ValidatorNotFound name).
Proof.
  split_and!.
  - change (segments "minLen|nope") with ["minLen"; "nope"].
    apply elem_of_cons. right. by left.
  - reflexivity.
  - reflexivity.
  - intros [name H]. vm_compute in H. discriminate H.
Qed.

(** C7, amended.  A rule string with a segment whose name is not
    registered never parses.  What is thrown is the error of the first
    invalid segment, which is that segment or one before it: the
    unknown-rule error of its name when the name is not registered, and
    otherwise the arity mismatch of its rule; so it is the unknown-rule
    error of the given segment when every segment before it is valid.
    An empty segment, such as a leading or a trailing [|] leaves, has the
    empty rule name [""], which is looked up like any other name. *)
Theorem validatorsParser_unknown_rule
    (V : ValidatorsType) (validators : string) (pre : list string)
    (elem : string) (post : list string) :
  segments validators = pre ++ elem :: post →
  V !! segmentName elem = None →
  (∃ e, _validatorsParser V validators = Throw e) ∧
  (Forall (fun x => ∃ v, parseSegment V x = Ok v) pre →
   _validatorsParser V validators =
     Throw (ValidatorNotFound (segmentName elem))) ∧
  (∃ pre1 bad post1,
     segments validators = pre1 ++ bad :: post1 ∧
     (List.length pre1 ≤ List.length pre)%nat ∧
     Forall
       (fun x =>
          ∃ entry, V !! segmentName x = Some entry ∧
            Z.of_nat (List.length (segmentParameters x)) =
              getNumberOfValidatorArguments entry) pre1 ∧
     match V !! segmentName bad with
     | None =>
         _validatorsParser V validators =
           Throw (ValidatorNotFound (segmentName bad))
     | Some entry =>
         Z.of_nat (List.length (segmentParameters bad)) ≠
           getNumberOfValidatorArguments entry ∧
         _validatorsParser V validators =
           Throw (ArgumentsMismatch (segmentName bad)
                    (getNumberOfValidatorArguments entry)
                    (List.length (segmentParameters bad)))
     end) ∧
  segmentName "" = "" ∧
  (∀ s rest, JS.trim s = String "|" rest →
     ∃ post', segments s = [] ++ "" :: post') ∧
  (∀ s rest, JS.trim s = rest +:+ "|" →
     ∃ pre', segments s = pre' ++ "" :: []).
Proof.
  intros Hseg Hunknown.
  pose proof (parseSegment_unknown V elem Hunknown) as Helem.
  assert (∃ pre1 bad post1 e,
            segments validators = pre1 ++ bad :: post1 ∧
            Forall (fun x => ∃ y, parseSegment V x = Ok y) pre1 ∧
            parseSegment V bad = Throw e ∧
            _validatorsParser V validators = Throw e) as Hfirst.
  { unfold _validatorsParser. fold (segments validators).
    destruct (mapThrow_total (parseSegment V) (segments validators))
      as [[vals Hok]|H]; [|exact H].
    apply mapThrow_Ok in Hok. rewrite Hseg in Hok.
    apply Forall2_app_inv_l in Hok as (? & ? & _ & Hok & _).
    apply Forall2_cons_inv_l in Hok as (v & ? & Hv & _). congruence. }
  destruct Hfirst as (pre1 & bad & post1 & e & Hsplit & Hpre1 & Hbad & Hthrow).
  split_and!.
  - by exists e.
  - intros Hpre. unfold _validatorsParser. fold (segments validators).
    rewrite Hseg. by apply mapThrow_Throw.
  - exists pre1, bad, post1. split_and!.
    + exact Hsplit.
    + destruct (decide (List.length pre1 ≤ List.length pre)%nat)
        as [Hle|Hgt]; [done|].
      assert (elem ∈ pre1) as Hin.
      { apply (list_elem_of_lookup_2 _ (List.length pre)).
        rewrite <- (lookup_app_l pre1 (bad :: post1)) by lia.
        rewrite <- Hsplit, Hseg. by apply list_lookup_middle. }
      destruct (proj1 (Forall_forall _ _) Hpre1 elem Hin) as [v Hv].
      congruence.
    + apply Forall_forall. intros x Hx.
      destruct (proj1 (Forall_forall _ _) Hpre1 x Hx) as [v Hv].
      by apply parseSegment_Ok in Hv as (_ & _ & Hentry).
    + destruct (V !! segmentName bad) as [entry|] eqn:Hentry.
      * rewrite (parseSegment_known V bad entry Hentry) in Hbad.
        case_bool_decide as Heq; [done|]. injection Hbad as <-.
        split; [by intros ?|exact Hthrow].
      * rewrite (parseSegment_unknown V bad Hentry) in Hbad.
        by injection Hbad as <-.
  - reflexivity.
  - intros s rest Hs. unfold segments. rewrite Hs, split_sep_head. eauto.
  - intros s rest Hs. unfold segments. rewrite Hs, split_sep_last. eauto.
Qed.

(** The rule string [|required] under the built-in registry. *)
Lemma validatorsParser_unknown_rule_witness :
  (segments "|required" = [] ++ "" :: ["required"] ∧
   Validator.validators !! segmentName "" = None) ∧
  _validatorsParser Validator.validators "|required" =
    Throw (ValidatorNotFound "").
Proof.
  split; [split; reflexivity|].
  apply (validatorsParser_unknown_rule Validator.validators "|required"
           [] "" ["required"]); [reflexivity | reflexivity | constructor].
Defined.

(** C8, counterexample.  The specification splits a segment on its
    first colon; the parser splits on every colon and keeps the first
    two pieces.  The segment [minLen:4:5] supplies the one parameter
    [4:5] and parses with the parameter [4]; the segment [range:1:2,3]
    supplies the two parameters that [range] declares and is rejected
    for supplying one. *)
Lemma second_colon_drops_parameters :
  specSegmentParameters "minLen:4:5" = ["4:5"] ∧
  parseSegment Validator.validators "minLen:4:5" =
    Ok (ParsedValidator.Build "minLen" ["4"]) ∧
  specSegmentParameters "range:1:2,3" = ["1:2"; "3"] ∧
  declaredArity <$> Validator.validators !! specSegmentName "range:1:2,3" =
    Some 2 ∧
  parseSegment Validator.validators "range:1:2,3" =
    Throw (ArgumentsMismatch "range" 2 1).
Proof. split_and!; reflexivity. Qed.

(** C8, amended.  The rule name of a segment is the text before its
    first colon, and the parameters that the parser takes from it are
    the comma-separated items of the text between the first colon and
    the second one, or the end.  For a segment whose rule is registered,
    the parser compares the number of these parameters with the arity
    of the rule, which is the number of parameters of its predicate
    after the value: a different number is an arity mismatch, the same
    number succeeds, and the parameters of the result are these, none
    dropped and none added.  When no second colon follows, they are the
    parameters that the segment supplies.  The built-in rules declare
    the arities 0 ([required], [number], [email]), 1 ([minLen],
    [maxLen], [min], [max], [confirm]) and 2 ([range]). *)
Theorem parseSegment_arity
    (V : ValidatorsType) (elem : string) (entry : ValidatorEntry.t) :
  V !! specSegmentName elem = Some entry →
  (Z.of_nat (List.length (suppliedParameters elem)) ≠ declaredArity entry →
   parseSegment V elem =
     Throw (ArgumentsMismatch (specSegmentName elem) (declaredArity entry)
              (List.length (suppliedParameters elem)))) ∧
  (Z.of_nat (List.length (suppliedParameters elem)) = declaredArity entry →
   parseSegment V elem =
     Ok (ParsedValidator.Build (specSegmentName elem)
           (suppliedParameters elem))) ∧
  (∀ v, parseSegment V elem = Ok v →
     ParsedValidator.name v = specSegmentName elem ∧
     ParsedValidator.parameters v = suppliedParameters elem ∧
     Z.of_nat (List.length (ParsedValidator.parameters v)) =
       declaredArity entry) ∧
  ((∀ rest, (splitFirst ":" elem).2 = Some rest →
            (splitFirst ":" rest).2 = None) →
   suppliedParameters elem = specSegmentParameters elem) ∧
  (declaredArity <$> Validator.validators =
     list_to_map
       [("required", 0); ("minLen", 1); ("maxLen", 1); ("number", 0);
        ("min", 1); ("max", 1); ("range", 2); ("email", 0);
        ("confirm", 1)]).
Proof.
  intros Hentry. rewrite <- segmentName_spec in Hentry.
  rewrite (parseSegment_known V elem entry Hentry).
  rewrite <- segmentName_spec, <- segmentParameters_supplied.
  change (declaredArity entry) with (getNumberOfValidatorArguments entry).
  split_and!.
  - intros Hne. by rewrite bool_decide_eq_false_2.
  - intros Heq. by rewrite bool_decide_eq_true_2.
  - case_bool_decide as Heq; [|done]. by intros v [= <-].
  - rewrite segmentParameters_supplied. apply suppliedParameters_spec.
  - vm_compute. reflexivity.
Qed.

(** The segments [minLen:4] and [minLen:4,5] under the built-in
    registry. *)
Lemma parseSegment_arity_witness :
  Validator.validators !! specSegmentName "minLen:4" =
    Some (ValidatorEntry.Build "Минимум $1 символов" minLen) ∧
  parseSegment Validator.validators "minLen:4" =
    Ok (ParsedValidator.Build "minLen" ["4"]) ∧
  parseSegment Validator.validators "minLen:4,5" =
    Throw (ArgumentsMismatch "minLen" 1 2) ∧
  suppliedParameters "minLen:4,5" = specSegmentParameters "minLen:4,5".
Proof.
  split; [reflexivity|]. split_and!.
  - apply (parseSegment_arity Validator.validators "minLen:4"
             (ValidatorEntry.Build "Минимум $1 символов" minLen));
      reflexivity.
  - apply (parseSegment_arity Validator.validators "minLen:4,5"
             (ValidatorEntry.Build "Минимум $1 символов" minLen));
      [reflexivity | discriminate].
  - apply (parseSegment_arity Validator.validators "minLen:4,5"
             (ValidatorEntry.Build "Минимум $1 символов" minLen));
      [reflexivity|]. by intros rest [= <-].
Defined.

(** * Reset *)

(** C9.  Whatever the store, the markers and the button were,
    [resetAllErrors] leaves a store without any key, no field with a
    visible message and the submit button enabled; the value snapshot and
    the text of the elements are the ones from before.  ([this._errors]
    is a new, empty object; what an evaluation has written onto a member
    of [Object.prototype], for a field named like it, is not part of the
    object and is read from the new one as from the old one.) *)
Theorem resetAllErrors_clears (this : Validator.t) :
  Forall
    (fun f => is_Some (_errorMessageElements this !! ParsedFieldType.name f))
    (_fields this) →
  ∃ this',
    resetAllErrors this = Some this' ∧
    ownKeys (_errors this') = ∅ ∧
    (∀ g r, errorOf (_errors this') g r =
              if JS.inherited g then errorOf (_errors this) g r else None) ∧
    isError this' = false ∧
    (∀ f, f ∈ _fields this' →
       ∃ element,
         _errorMessageElements this' !! ParsedFieldType.name f = Some element ∧
         HTMLDivElement.visible element = false) ∧
    (∀ f, f ∈ _fields this' → surfaced this' (ParsedFieldType.name f) = None) ∧
    (∀ n, HTMLDivElement.textContent <$> _errorMessageElements this' !! n =
            HTMLDivElement.textContent <$> _errorMessageElements this !! n) ∧
    _submitButton_disabled this' = false ∧
    _valueFields this' = _valueFields this ∧
    _fields this' = _fields this.
Proof.
  intros Hel. unfold resetAllErrors.
  destruct (hideErrorMessages_spec (ParsedFieldType.name <$> _fields this)
              (_errorMessageElements this)) as (elements & -> & Hlookup).
  { intros n (f & -> & Hf)%list_elem_of_fmap.
    by apply (proj1 (Forall_forall _ _) Hel). }
  simpl. eexists. split; [done|]. simpl.
  assert (∀ f, f ∈ _fields this →
    ∃ element,
      elements !! ParsedFieldType.name f = Some element ∧
      HTMLDivElement.visible element = false) as Hhidden.
  { intros f Hf. rewrite Hlookup.
    rewrite decide_True by by apply list_elem_of_fmap_2.
    destruct (proj1 (Forall_forall _ _) Hel f Hf) as [el ->].
    by exists (setVisible false el). }
  split_and!; try done.
  - apply ownKeys_onPrototype.
  - apply errorOf_onPrototype.
  - unfold isError. simpl. by rewrite ownKeys_onPrototype.
  - intros f Hf. unfold surfaced. simpl.
    by destruct (Hhidden f Hf) as (el & -> & ->).
  - intros n. rewrite Hlookup. case_decide; [|done].
    by destruct (_errorMessageElements this !! n).
Qed.

(** A validator with an error on [name], its message visible and the
    button disabled. *)
Lemma resetAllErrors_clears_witness :
  Forall
    (fun f =>
       is_Some (_errorMessageElements failedName !! ParsedFieldType.name f))
    (_fields failedName) ∧
  ∃ this',
    resetAllErrors failedName = Some this' ∧
    ownKeys (_errors this') = ∅ ∧
    errorOf (_errors this') "name" "minLen" = None ∧
    _submitButton_disabled this' = false ∧
    _valueFields this' = {[ "name" := "ab" ]}.
Proof.
  assert (Forall
    (fun f =>
       is_Some (_errorMessageElements failedName !! ParsedFieldType.name f))
    (_fields failedName)) as Hel.
  { repeat constructor; by eexists. }
  split; [exact Hel|].
  destruct (resetAllErrors_clears failedName Hel)
    as (this' & H & He & Hr & _ & _ & _ & _ & Hd & Hv & _).
  exists this'. split_and!; [exact H | exact He | | exact Hd | by rewrite Hv].
  exact (Hr "name" "minLen").
Defined.

(** * When a rule passes, and which snapshot it reads *)







(** * The keys of the error store *)


(** A field named [constructor] with the rule [required] and an empty
    value: the rule fails, its message is put onto the inherited member,
    and the store has no key; [isError] is false. *)
Lemma inherited_name_hides_failure :
  ∃ this',
    _eventHandler Validator.validators (started input [constructorField])
      "" constructorField = Some this' ∧
    passes (_valueFields (started input [constructorField])) ""
      constructorField (rule "required" [])
      (ValidatorEntry.Build "Поле обязательно для заполнения" required) =
      false ∧
    errorOf (_errors this') "constructor" "required" =
      Some "Поле обязательно для заполнения" ∧
    ownKeys (_errors this') = ∅ ∧
    isError this' = false.
Proof.
  eexists. split; [reflexivity|]. split_and!.
  - reflexivity.
  - by vm_compute.
  - by vm_compute.
  - reflexivity.
Qed.



(** * The message that a field shows *)



(** With the built-in predicates no value fails both [minLen:4] and
    [maxLen:5]: a trimmed length is not below 4 and above 5. *)
Lemma minLen4_maxLen5_exclusive valueFields value :
  InstanceValidatorType.call minLen valueFields value ["4"] = false →
  InstanceValidatorType.call maxLen valueFields value ["5"] = true.
Proof.
  simpl. unfold trimmedLength, JS.ofLength.
  change (JS.Number (Some "4")) with (JS.Finite (QArith_base.inject_Z 4)).
  change (JS.Number (Some "5")) with (JS.Finite (QArith_base.inject_Z 5)).
  unfold JS.ge, JS.le, QArith_base.Qle_bool. simpl.
  rewrite Z.leb_gt, Z.leb_le. lia.
Qed.

(** The registries of the examples are what the static methods return. *)
Lemma digitRegistry_added :
  addValidator Validator.validators "minLen"
    (ValidatorEntry.Build "Минимум $1 цифр" minDigits) true =
  Ok digitRegistry.
Proof. reflexivity. Qed.




(** * The synchronized evaluation of a dependent field *)









(** * Submission *)

Section Submission.

Context (V : ValidatorsType).

Lemma errors_withCalls this cs : _errors (withCalls this cs) = _errors this.
Proof. done. Qed.





End Submission.



(** A form whose only field is named [constructor], required, submitted
    empty: the message is put onto the inherited member, the store has
    no key, and the submit callback is called. *)
Lemma submit_inherited_name :
  (fun this =>
     (isError this,
      errorOf (_errors this) "constructor" "required",
      last (calls this)))
    <$> submitListener Validator.validators
          (started input [constructorField])
          (list_to_map [("constructor", "")]) =
  Some (false, Some "Поле обязательно для заполнения",
        Some (OnSubmitCallback (list_to_map [("constructor", "")]))).
Proof. vm_compute. reflexivity. Qed.

(** The two submissions of the specification, evaluated. *)
Lemma submit_rejected :
  (fun this =>
     (isError this,
      errorOf (_errors this) "name" "minLen",
      errorOf (_errors this) "age" "min",
      last (calls this)))
    <$> submitListener Validator.validators
          (started input [nameField; ageField]) rejectedForm =
  Some (true, Some "Минимум 4 символов", Some "Минимум 10",
        Some preventDefault).
Proof. vm_compute. reflexivity. Qed.

Lemma submit_accepted :
  (fun this => (_errors this, calls this))
    <$> submitListener Validator.validators
          (started input [nameField; ageField]) acceptedForm =
  Some (∅, [OnSubmitCallback (list_to_map [("name", "abcd"); ("age", "15")])]).
Proof. vm_compute. reflexivity. Qed.

(** The constructor on the declaration of [index.js]: the state of the
    examples, before the two callbacks are registered. *)
Lemma new_index :
  (fun this => onSubmit (onError this))
    <$> match
          new Validator.validators ".my-form" (Some indexForm) (Some false)
            indexOptions
        with
        | Ok this => Some this
        | Throw _ => None
        end =
  Some (started input indexFields).
Proof. vm_compute. reflexivity. Qed.

(** * The registry *)

Section Registry.

Implicit Types (V : ValidatorsType).

(** The parser looks at the registry only for the names and for the
    number of parameters of the predicates. *)
Lemma parseSegment_ext V V' elem :
  (∀ n, InstanceValidatorType.length <$> (ValidatorEntry.validator <$> V' !! n) =
        InstanceValidatorType.length <$> (ValidatorEntry.validator <$> V !! n)) →
  parseSegment V' elem = parseSegment V elem.
Proof.
  intros H. unfold parseSegment. specialize (H (segmentName elem)).
  fold (segmentName elem).
  destruct (V' !! segmentName elem) as [e'|], (V !! segmentName elem) as [e|];
    simpl in H; try done.
  injection H as H. unfold getNumberOfValidatorArguments. by rewrite H.
Qed.

Lemma mapThrow_ext {A B} (f g : A → result B) l :
  (∀ x, x ∈ l → f x = g x) → mapThrow f l = mapThrow g l.
Proof.
  induction l as [|x l IH]; intros H; simpl; [done|].
  rewrite (H x) by by left. rewrite IH; [done|].
  intros y ?. apply H. by right.
Qed.

Lemma validatorsParser_ext V V' validators :
  (∀ n, InstanceValidatorType.length <$> (ValidatorEntry.validator <$> V' !! n) =
        InstanceValidatorType.length <$> (ValidatorEntry.validator <$> V !! n)) →
  _validatorsParser V' validators = _validatorsParser V validators.
Proof.
  intros H. unfold _validatorsParser. apply mapThrow_ext.
  intros elem _. by apply parseSegment_ext.
Qed.

Lemma setMessage_lookup V name message V' n :
  setMessage V name message = Ok V' →
  V' !! n =
    if decide (n = name)
    then (fun entry =>
            ValidatorEntry.Build message (ValidatorEntry.validator entry))
           <$> V !! n
    else V !! n.
Proof.
  unfold setMessage. destruct (V !! name) as [entry|] eqn:E; [|done].
  intros [= <-]. case_decide as Hn.
  - subst n. by rewrite lookup_insert_eq, E.
  - by rewrite lookup_insert_ne.
Qed.

End Registry.

(** X1.  [setMessage] on a registered name changes the message of that
    rule and nothing else: every predicate and every other entry is the
    one from before, and every rule string parses as it did.  On a name
    that is not registered it throws and the registry is the one from
    before. *)
Theorem setMessage_changes_message_only
    (V : ValidatorsType) (name message : string) (entry : ValidatorEntry.t) :
  V !! name = Some entry →
  ∃ V',
    setMessage V name message = Ok V' ∧
    V' !! name =
      Some (ValidatorEntry.Build message (ValidatorEntry.validator entry)) ∧
    (∀ n, n ≠ name → V' !! n = V !! n) ∧
    (∀ n, ValidatorEntry.validator <$> V' !! n =
          ValidatorEntry.validator <$> V !! n) ∧
    (∀ validators, _validatorsParser V' validators =
                   _validatorsParser V validators) ∧
    (∀ other m, V !! other = None →
       setMessage V other m = Throw (ValidatorNotDefined other)).
Proof.
  intros Hentry.
  assert (∃ V', setMessage V name message = Ok V') as [V' H].
  { unfold setMessage. rewrite Hentry. eauto. }
  pose proof (setMessage_lookup V name message V') as Hlookup.
  assert (∀ n, ValidatorEntry.validator <$> V' !! n =
               ValidatorEntry.validator <$> V !! n) as Hsame.
  { intros n. rewrite (Hlookup n H). case_decide; [|done].
    by destruct (V !! n). }
  exists V'. split_and!; try done.
  - rewrite (Hlookup name H), decide_True by done. by rewrite Hentry.
  - intros n Hn. by rewrite (Hlookup n H), decide_False.
  - intros validators. apply validatorsParser_ext. intros n. by rewrite Hsame.
  - intros other m Hnone. unfold setMessage. by rewrite Hnone.
Qed.

(** The message of [minLen] in the built-in registry. *)
Lemma setMessage_changes_message_only_witness :
  Validator.validators !! "minLen" =
    Some (ValidatorEntry.Build "Минимум $1 символов" minLen) ∧
  ∃ V',
    setMessage Validator.validators "minLen" "At least $1" = Ok V' ∧
    _validatorsParser V' "required|minLen:4" =
      _validatorsParser Validator.validators "required|minLen:4".
Proof.
  split; [reflexivity|].
  destruct (setMessage_changes_message_only Validator.validators "minLen"
              "At least $1"
              (ValidatorEntry.Build "Минимум $1 символов" minLen) eq_refl)
    as (V' & H & _ & _ & _ & Hparse & _).
  exists V'. split; [exact H | apply Hparse].
Defined.



(** * Strings: splitting and joining *)

Section Strings.

#[local] Arguments join : simpl never.

Implicit Types (s t : string) (c sep : ascii).

Lemma append_nil_l s : "" +:+ s = s.
Proof. reflexivity. Qed.

Lemma append_cons c s t : String c s +:+ t = String c (s +:+ t).
Proof. reflexivity. Qed.

Lemma chars_app s t : chars (s +:+ t) = chars s ++ chars t.
Proof.
  induction s as [|c s IH]; [done|].
  rewrite append_cons. simpl. by rewrite IH.
Qed.

Lemma chars_inj s t : chars s = chars t → s = t.
Proof.
  revert t. induction s as [|c s IH]; intros [|d t]; simpl; try done.
  intros [= -> H]. by rewrite (IH t H).
Qed.

Lemma eqb_false_of_ne c sep : c ≠ sep → Ascii.eqb c sep = false.
Proof. intros H. by apply Ascii.eqb_neq. Qed.

(** No piece of a split holds the separator. *)
Lemma split_not_sep sep s x : x ∈ JS.split sep s → sep ∉ chars x.
Proof.
  revert x. induction s as [|c s IH]; intros x; simpl.
  - intros ->%list_elem_of_singleton. by intros ?%elem_of_nil.
  - destruct (Ascii.eqb c sep) eqn:E.
    + intros [->|Hx]%elem_of_cons; [by intros ?%elem_of_nil | by apply IH].
    + destruct (split_cons sep s) as (h & t & Hs). rewrite Hs in *.
      intros [->|Hx]%elem_of_cons.
      * simpl. intros [->|Hin]%elem_of_cons.
        -- by rewrite Ascii.eqb_refl in E.
        -- revert Hin. apply IH. by left.
      * apply IH. by right.
Qed.

(** The pieces are made of code units of the string. *)
Lemma split_chars sep s x c : x ∈ JS.split sep s → c ∈ chars x → c ∈ chars s.
Proof.
  revert x. induction s as [|a s IH]; intros x; simpl.
  - by intros ->%list_elem_of_singleton.
  - destruct (Ascii.eqb a sep) eqn:E.
    + intros [->|Hx]%elem_of_cons; [by intros ?%elem_of_nil|].
      intros Hc. right. by apply (IH x).
    + destruct (split_cons sep s) as (h & t & Hs). rewrite Hs in *.
      intros [->|Hx]%elem_of_cons.
      * simpl. intros [->|Hin]%elem_of_cons; [by left|].
        right. apply (IH h); [by left | done].
      * intros Hc. right. apply (IH x); [by right | done].
Qed.

Lemma split_no_sep sep s : sep ∉ chars s → JS.split sep s = [s].
Proof.
  induction s as [|c s IH]; simpl; [done|].
  intros [Hc Hs]%not_elem_of_cons.
  rewrite (eqb_false_of_ne c sep) by done. by rewrite (IH Hs).
Qed.

Lemma split_app_sep sep s t :
  sep ∉ chars s → JS.split sep (s +:+ String sep t) = s :: JS.split sep t.
Proof.
  induction s as [|c s IH].
  - intros _. rewrite append_nil_l. simpl. by rewrite Ascii.eqb_refl.
  - intros [Hc Hs]%not_elem_of_cons. rewrite append_cons.
    change (JS.split sep (String c (s +:+ String sep t))) with
      (if Ascii.eqb c sep then "" :: JS.split sep (s +:+ String sep t)
       else match JS.split sep (s +:+ String sep t) with
            | [] => [String c ""]
            | h :: rest => String c h :: rest
            end).
    rewrite (eqb_false_of_ne c sep) by done. by rewrite (IH Hs).
Qed.

Lemma split_join sep (l : list string) :
  l ≠ [] → Forall (fun x => sep ∉ chars x) l →
  JS.split sep (join sep l) = l.
Proof.
  induction l as [|x l IH]; [done|]. intros _ [Hx Hl]%Forall_cons.
  destruct l as [|y l]; [by apply split_no_sep|].
  change (join sep (x :: y :: l)) with (x +:+ String sep (join sep (y :: l))).
  rewrite (split_app_sep _ _ _ Hx). by rewrite IH.
Qed.

Lemma chars_join sep (l : list string) c :
  c ∈ chars (join sep l) → c = sep ∨ ∃ x, x ∈ l ∧ c ∈ chars x.
Proof.
  induction l as [|x l IH]; [by intros ?%elem_of_nil|].
  destruct l as [|y l].
  - intros Hc. right. exists x. split; [by left | done].
  - change (join sep (x :: y :: l)) with (x +:+ String sep (join sep (y :: l))).
    rewrite chars_app. simpl.
    intros [Hc|[->|Hc]%elem_of_cons]%elem_of_app.
    + right. exists x. split; [by left | done].
    + by left.
    + destruct (IH Hc) as [->|(z & Hz & Hcz)]; [by left|].
      right. exists z. split; [by right | done].
Qed.

End Strings.

(** * The parser, beyond the claims *)

Section ParserExtras.

#[local] Arguments join : simpl never.

Context (V : ValidatorsType).

(** A segment that throws makes the rule string throw. *)
Lemma validatorsParser_Throw_of_segment validators elem e :
  elem ∈ segments validators →
  parseSegment V elem = Throw e →
  ∃ e', _validatorsParser V validators = Throw e'.
Proof.
  intros Helem Hthrow. unfold _validatorsParser. fold (segments validators).
  destruct (mapThrow_total (parseSegment V) (segments validators))
    as [[vals Hok]|(pre' & x & post' & e' & _ & _ & _ & H)]; [|by eauto].
  apply mapThrow_Ok in Hok.
  apply list_elem_of_lookup in Helem as [i Hi].
  destruct (Forall2_lookup_l _ _ _ _ _ Hok Hi) as (v & _ & Hv). congruence.
Qed.

Lemma segmentName_in_split elem : segmentName elem ∈ JS.split ":" elem.
Proof.
  unfold segmentName. destruct (split_cons ":" elem) as (h & t & ->).
  simpl. by left.
Qed.

Lemma segmentParameters_in elem p :
  p ∈ segmentParameters elem →
  ∃ raw, raw ∈ JS.split ":" elem ∧ p ∈ JS.split "," raw.
Proof.
  unfold segmentParameters.
  destruct (JS.split ":" elem !! 1%nat) as [raw|] eqn:E; simpl.
  - intros Hp. exists raw. split; [|done]. by eapply list_elem_of_lookup_2.
  - by intros ?%elem_of_nil.
Qed.

(** A rendered rule reads back as the rule. *)
Lemma parseSegment_renderRule val entry :
  V !! ParsedValidator.name val = Some entry →
  Z.of_nat (List.length (ParsedValidator.parameters val)) =
    getNumberOfValidatorArguments entry →
  ":"%char ∉ chars (ParsedValidator.name val) →
  Forall (fun p => (":"%char ∉ chars p) ∧ (","%char ∉ chars p))
    (ParsedValidator.parameters val) →
  parseSegment V (renderRule val) = Ok val.
Proof.
  destruct val as [name params]. simpl. intros Hentry Harity Hname Hparams.
  assert (segmentName (renderRule (ParsedValidator.Build name params)) = name ∧
          segmentParameters (renderRule (ParsedValidator.Build name params)) =
            params) as [Hn Hp].
  { unfold segmentName, segmentParameters, renderRule. simpl.
    destruct params as [|p ps].
    - by rewrite (split_no_sep _ _ Hname).
    - rewrite (split_app_sep _ _ _ Hname).
      rewrite split_no_sep.
      + simpl. split; [done|]. apply split_join; [done|].
        eapply Forall_impl; [exact Hparams|]. by intros ? [_ ?].
      + intros [Heq|(x & Hx & Hcx)]%chars_join; [done|].
        by destruct (proj1 (Forall_forall _ _) Hparams x Hx). }
  rewrite (parseSegment_known V _ entry) by by rewrite Hn.
  rewrite Hn, Hp. by rewrite bool_decide_eq_true_2.
Qed.

End ParserExtras.

(** * Messages set in bulk *)

Section SetAllMessages.

Implicit Types (V : ValidatorsType) (messages : list (string * string)).

Lemma setAllMessages_app V pre post :
  setAllMessages V (pre ++ post) =
    match setAllMessages V pre with
    | (V', None) => setAllMessages V' post
    | stopped => stopped
    end.
Proof.
  revert V. induction pre as [|[key message] pre IH]; intros V; [done|].
  simpl. destruct (setMessage V key message) as [V'|e]; [apply IH | done].
Qed.

(** With registered keys of different names every message is set. *)
Lemma setAllMessages_registered V messages :
  Forall (fun km => is_Some (V !! km.1)) messages →
  NoDup messages.*1 →
  ∃ V', setAllMessages V messages = (V', None) ∧
    ∀ n, V' !! n =
      match (list_to_map messages : gmap string string) !! n with
      | Some message =>
          (fun entry => ValidatorEntry.Build message (ValidatorEntry.validator entry))
            <$> V !! n
      | None => V !! n
      end.
Proof.
  revert V. induction messages as [|[key message] messages IH]; intros V.
  - intros _ _. exists V. split; [done|]. intros n. simpl. by rewrite lookup_empty.
  - intros [[entry Hentry] Hreg]%Forall_cons [Hnew Hdup]%NoDup_cons.
    simpl in Hentry, Hnew.
    simpl. unfold setMessage at 1. rewrite Hentry.
    set (V1 := <[key := ValidatorEntry.Build message (ValidatorEntry.validator entry)]> V).
    destruct (IH V1) as (V' & Hset & Hlookup); [|done|].
    { eapply Forall_impl; [exact Hreg|]. intros [k m] [e He]. simpl in *.
      unfold V1. destruct (decide (k = key)) as [->|Hne].
      - rewrite lookup_insert_eq. by eexists.
      - rewrite lookup_insert_ne by done. by eexists. }
    exists V'. split; [done|]. intros n. rewrite (Hlookup n).
    destruct (decide (n = key)) as [->|Hne].
    + rewrite lookup_insert_eq.
      rewrite (proj1 (not_elem_of_list_to_map _ _) Hnew).
      unfold V1. by rewrite lookup_insert_eq, Hentry.
    + rewrite lookup_insert_ne by done.
      unfold V1. by rewrite lookup_insert_ne by done.
Qed.

End SetAllMessages.

(** X3.  [setAllMessages] is not all-or-nothing.  It sets the messages in
    the order of the keys and stops at the first key that names no
    registered rule, throwing for that key; the messages of the keys
    before it stay set, those after it are not looked at, and no
    predicate changes.  (With no such key every message is set and
    nothing is thrown: this is what the call does on [pre].) *)
Theorem setAllMessages_stops_at_unknown
    (V : ValidatorsType) (pre : list (string * string))
    (key message : string) (post : list (string * string)) :
  Forall (fun km => is_Some (V !! km.1)) pre →
  NoDup pre.*1 →
  V !! key = None →
  ∃ V',
    setAllMessages V pre = (V', None) ∧
    setAllMessages V (pre ++ (key, message) :: post) =
      (V', Some (ValidatorNotDefined key)) ∧
    (∀ k m, (k, m) ∈ pre →
       ValidatorEntry.message <$> V' !! k = Some m) ∧
    (∀ n, n ∉ pre.*1 → V' !! n = V !! n) ∧
    (∀ n, ValidatorEntry.validator <$> V' !! n = ValidatorEntry.validator <$> V !! n).
Proof.
  intros Hreg Hdup Hkey.
  destruct (setAllMessages_registered V pre Hreg Hdup) as (V' & Hset & Hlookup).
  assert (Hout : ∀ n, n ∉ pre.*1 → V' !! n = V !! n).
  { intros n Hn. rewrite (Hlookup n).
    by rewrite (proj1 (not_elem_of_list_to_map _ _) Hn). }
  exists V'. split_and!; [done| | |done|].
  - rewrite setAllMessages_app, Hset. simpl. unfold setMessage.
    rewrite Hout; [by rewrite Hkey|].
    intros ((k & m) & -> & Hin)%list_elem_of_fmap.
    destruct (proj1 (Forall_forall _ _) Hreg _ Hin) as [e He].
    simpl in He, Hkey. congruence.
  - intros k m Hin. rewrite (Hlookup k).
    rewrite (proj1 (elem_of_list_to_map _ _ _ Hdup) Hin).
    destruct (proj1 (Forall_forall _ _) Hreg _ Hin) as [e He].
    simpl in He. by rewrite He.
  - intros n. rewrite (Hlookup n).
    destruct (list_to_map pre !! n); [|done].
    by destruct (V !! n).
Qed.

(** New messages for [required] and [email], then one for a rule
    [phone] that is not registered, then one for [number]. *)
Lemma setAllMessages_stops_at_unknown_witness :
  ∃ V',
    setAllMessages Validator.validators
      [("required", "Required"); ("email", "Not an e-mail");
       ("phone", "Not a phone number"); ("number", "Not a number")] =
      (V', Some (ValidatorNotDefined "phone")) ∧
    ValidatorEntry.message <$> V' !! "required" = Some "Required" ∧
    ValidatorEntry.message <$> V' !! "email" = Some "Not an e-mail" ∧
    V' !! "number" = Validator.validators !! "number".
Proof.
  destruct (setAllMessages_stops_at_unknown Validator.validators
              [("required", "Required"); ("email", "Not an e-mail")]
              "phone" "Not a phone number" [("number", "Not a number")])
    as (V' & _ & Hstop & Hset & Hkeep & _).
  - apply Forall_cons; split; [eexists; reflexivity|].
    apply Forall_cons; split; [eexists; reflexivity|].
    apply Forall_nil_2.
  - refine (bool_decide_unpack _ _). vm_compute. exact I.
  - reflexivity.
  - exists V'. split_and!.
    + exact Hstop.
    + apply Hset. by left.
    + apply Hset. right. by left.
    + apply Hkeep. refine (bool_decide_unpack _ _). vm_compute. exact I.
Defined.

(** * Rules that cannot be written *)

(** X4.  A predicate declared without a [value] parameter
    ([Function.length] 0) gives the rule the argument count -1, which no
    segment has: every rule string that names the rule throws, whatever
    parameters are written. *)
Theorem no_parameter_predicate_never_parses
    (V : ValidatorsType) (validators elem : string)
    (entry : ValidatorEntry.t) :
  elem ∈ segments validators →
  V !! segmentName elem = Some entry →
  InstanceValidatorType.length (ValidatorEntry.validator entry) = 0%nat →
  parseSegment V elem =
    Throw (ArgumentsMismatch (segmentName elem) (-1)
             (List.length (segmentParameters elem))) ∧
  ∃ e, _validatorsParser V validators = Throw e.
Proof.
  intros Helem Hentry Hlen.
  assert (Hthrow : parseSegment V elem =
    Throw (ArgumentsMismatch (segmentName elem) (-1)
             (List.length (segmentParameters elem)))).
  { rewrite (parseSegment_known V elem entry Hentry).
    unfold getNumberOfValidatorArguments. rewrite Hlen.
    rewrite bool_decide_eq_false_2; [done | lia]. }
  split; [exact Hthrow|].
  exact (validatorsParser_Throw_of_segment V validators elem _ Helem Hthrow).
Qed.

(** A rule [always] whose predicate takes no parameter at all. *)
Lemma no_parameter_predicate_never_parses_witness :
  let V :=
    <["always" :=
        ValidatorEntry.Build "never shown"
          (InstanceValidatorType.Build 0 (fun _ _ _ => true))]>
      Validator.validators in
  parseSegment V "always" = Throw (ArgumentsMismatch "always" (-1) 0) ∧
  ∃ e, _validatorsParser V "required|always" = Throw e.
Proof.
  intros V.
  apply (no_parameter_predicate_never_parses V "required|always" "always"
           (ValidatorEntry.Build "never shown"
              (InstanceValidatorType.Build 0 (fun _ _ _ => true)))).
  - refine (bool_decide_unpack _ _). vm_compute. exact I.
  - reflexivity.
  - reflexivity.
Defined.

(** * What a parsed pipeline looks like *)

(** X5.  A rule string that parses gives one rule per segment, in the
    order of the segments, and at least one rule.  Each rule is
    registered and has as many parameters as its predicate takes after
    the value; a name holds neither [|] nor [:], and a parameter none of
    [|], [:] and [,]. *)
Theorem validatorsParser_Ok_inv
    (V : ValidatorsType) (validators : string)
    (vals : list ParsedValidator.t) :
  _validatorsParser V validators = Ok vals →
  vals ≠ [] ∧
  vals =
    (fun elem =>
       ParsedValidator.Build (segmentName elem) (segmentParameters elem))
      <$> segments validators ∧
  Forall (fun v =>
      (∃ entry, V !! ParsedValidator.name v = Some entry ∧
         Z.of_nat (List.length (ParsedValidator.parameters v)) =
           getNumberOfValidatorArguments entry) ∧
      ("|"%char ∉ chars (ParsedValidator.name v)) ∧
      (":"%char ∉ chars (ParsedValidator.name v)) ∧
      Forall (fun p => ("|"%char ∉ chars p) ∧ (":"%char ∉ chars p) ∧
                       (","%char ∉ chars p))
        (ParsedValidator.parameters v)) vals.
Proof.
  unfold _validatorsParser. fold (segments validators). intros Hparse.
  apply mapThrow_Ok in Hparse.
  assert (Hbar : ∀ elem, elem ∈ segments validators → "|"%char ∉ chars elem).
  { intros elem. apply split_not_sep. }
  split_and!.
  - intros ->. apply Forall2_nil_inv_r in Hparse.
    unfold segments in Hparse.
    by destruct (split_cons "|" (JS.trim validators)) as (h & t & Hs);
      rewrite Hs in Hparse.
  - clear Hbar. induction Hparse as [|elem v l l' Hv _ IH]; [done|].
    apply parseSegment_Ok in Hv as (Hn & Hp & _). destruct v as [n p].
    simpl in Hn, Hp. rewrite fmap_cons, Hn, Hp. f_equal. exact IH.
  - induction Hparse as [|elem v l l' Hv _ IH]; [done|].
    apply Forall_cons. split.
    + pose proof (Hbar elem ltac:(by left)) as Helem.
      apply parseSegment_Ok in Hv as (-> & -> & entry & Hentry & Harity).
      split_and!.
      * by exists entry.
      * intros Hc. apply Helem.
        by apply (split_chars ":" elem _ _ (segmentName_in_split elem)).
      * apply split_not_sep with (s := elem), segmentName_in_split.
      * apply Forall_forall. intros p Hp.
        apply segmentParameters_in in Hp as (raw & Hraw & Hp).
        split_and!.
        -- intros Hc. apply Helem.
           apply (split_chars ":" elem raw _ Hraw).
           by apply (split_chars "," raw p _ Hp).
        -- intros Hc. apply (split_not_sep ":" elem raw Hraw).
           by apply (split_chars "," raw p _ Hp).
        -- by apply (split_not_sep "," raw p).
    + apply IH. intros elem' Hin. apply Hbar. by right.
Qed.

Lemma validatorsParser_Ok_inv_witness :
  [rule "required" []; rule "range" ["18"; "60"]] ≠ [] ∧
  Forall (fun v => ":"%char ∉ chars (ParsedValidator.name v))
    [rule "required" []; rule "range" ["18"; "60"]].
Proof.
  destruct (validatorsParser_Ok_inv Validator.validators
              " required|range:18,60 "
              [rule "required" []; rule "range" ["18"; "60"]] eq_refl)
    as (Hne & _ & Hall).
  split; [exact Hne|].
  eapply Forall_impl; [exact Hall|]. by intros v (_ & _ & H & _).
Defined.

(** X6.  Reading back what was written: a non-empty list of rules, each
    registered with the right number of parameters and written without
    the separators, is what [_validatorsParser] gives for its rendering
    [name:p1,p2|name|...], with or without white space around it. *)
Theorem validatorsParser_renderRules
    (V : ValidatorsType) (validators : string)
    (vals : list ParsedValidator.t) :
  vals ≠ [] →
  Forall (fun v =>
      (∃ entry, V !! ParsedValidator.name v = Some entry ∧
         Z.of_nat (List.length (ParsedValidator.parameters v)) =
           getNumberOfValidatorArguments entry) ∧
      ("|"%char ∉ chars (ParsedValidator.name v)) ∧
      (":"%char ∉ chars (ParsedValidator.name v)) ∧
      Forall (fun p => ("|"%char ∉ chars p) ∧ (":"%char ∉ chars p) ∧
                       (","%char ∉ chars p))
        (ParsedValidator.parameters v)) vals →
  JS.trim validators = renderRules vals →
  _validatorsParser V validators = Ok vals.
Proof.
  intros Hne Hall Htrim. unfold _validatorsParser. rewrite Htrim.
  unfold renderRules. rewrite split_join.
  - apply mapThrow_Ok. clear Hne Htrim.
    induction Hall as [|v l Hv _ IH]; [by constructor|].
    rewrite fmap_cons. constructor; [|exact IH].
    destruct Hv as ((entry & Hentry & Harity) & _ & Hname & Hparams).
    apply (parseSegment_renderRule V v entry Hentry Harity Hname).
    eapply Forall_impl; [exact Hparams|]. by intros p (_ & ? & ?).
  - by destruct vals.
  - apply Forall_fmap. eapply Forall_impl; [exact Hall|].
    intros v (_ & Hbar & _ & Hparams). simpl.
    unfold renderRule. destruct (ParsedValidator.parameters v) as [|p ps] eqn:E;
      [done|].
    rewrite chars_app. cbn [String.list_ascii_of_string].
    intros [Hc|[Hc|Hc]%elem_of_cons]%elem_of_app; [done|done|].
    apply chars_join in Hc as [Hc|(x & Hx & Hcx)]; [done|].
    by destruct (proj1 (Forall_forall _ _) Hparams x Hx) as (? & _).
Qed.

Lemma validatorsParser_renderRules_witness :
  _validatorsParser Validator.validators " required|range:18,60 " =
    Ok [rule "required" []; rule "range" ["18"; "60"]].
Proof.
  apply validatorsParser_renderRules.
  - discriminate.
  - apply Forall_cons; split; [|apply Forall_cons; split; [|apply Forall_nil_2]].
    + split; [eexists; split; reflexivity|].
      refine (bool_decide_unpack _ _). vm_compute. exact I.
    + split; [eexists; split; reflexivity|].
      refine (bool_decide_unpack _ _). vm_compute. exact I.
  - reflexivity.
Defined.

(** * Messages with placeholders *)

Section Replace.

Implicit Types (s t pat : string) (c : ascii).

Lemma append_assoc s t u : (s +:+ t) +:+ u = s +:+ t +:+ u.
Proof.
  induction s as [|a s IH]; [done|]. rewrite !append_cons. by rewrite IH.
Qed.

Lemma append_nil_r s : s +:+ "" = s.
Proof. induction s as [|a s IH]; [done|]. rewrite append_cons. by rewrite IH. Qed.

Lemma stripPrefix_app pat s : JS.stripPrefix pat (pat +:+ s) = Some s.
Proof.
  induction pat as [|a pat IH]; [by destruct s|].
  rewrite append_cons. simpl. by rewrite Ascii.eqb_refl.
Qed.

Lemma search_unfold pat s :
  JS.search pat s =
    match JS.stripPrefix pat s with
    | Some rest => Some ("", rest)
    | None =>
        match s with
        | "" => None
        | String c s' =>
            match JS.search pat s' with
            | Some (before, rest) => Some (String c before, rest)
            | None => None
            end
        end
    end.
Proof. by destruct s. Qed.

(** A pattern is not found in a text without its first code unit. *)
Lemma search_absent c pat s :
  c ∉ chars s → JS.search (String c pat) s = None.
Proof.
  induction s as [|a s IH]; [done|].
  intros [Ha Hs]%not_elem_of_cons. rewrite search_unfold. simpl.
  rewrite (eqb_false_of_ne c a) by done. by rewrite (IH Hs).
Qed.

Lemma search_first c pat before rest :
  c ∉ chars before →
  JS.search (String c pat) (before +:+ String c pat +:+ rest) =
    Some (before, rest).
Proof.
  induction before as [|a before IH].
  - intros _. rewrite append_nil_l, search_unfold.
    by rewrite stripPrefix_app.
  - intros [Ha Hs]%not_elem_of_cons. rewrite append_cons, search_unfold.
    simpl. rewrite (eqb_false_of_ne c a) by done. by rewrite (IH Hs).
Qed.

(** A replacement text without [$] stands for itself. *)
Lemma GetSubstitution_plain matched before rest tpl :
  "$"%char ∉ chars tpl → JS.GetSubstitution matched before rest tpl = tpl.
Proof.
  induction tpl as [|c tpl IH]; [done|].
  intros [Hc Ht]%not_elem_of_cons. simpl.
  rewrite (eqb_false_of_ne c "$") by done. by rewrite (IH Ht).
Qed.

Lemma replace_absent c pat s replacement :
  c ∉ chars s → JS.replace s (String c pat) replacement = s.
Proof. intros H. unfold JS.replace. by rewrite search_absent. Qed.

Lemma replace_first c pat before rest replacement :
  c ∉ chars before →
  JS.replace (before +:+ String c pat +:+ rest) (String c pat) replacement =
    before +:+ JS.GetSubstitution (String c pat) before rest replacement
    +:+ rest.
Proof. intros H. unfold JS.replace. by rewrite search_first. Qed.

Lemma getErrorMessageFrom_plain index message params :
  "$"%char ∉ chars message →
  getErrorMessageFrom index message params = message.
Proof.
  intros H. revert index. induction params as [|p params IH]; intros index;
    [done|].
  simpl. change ("$" +:+ ?x) with (String "$" x).
  rewrite replace_absent by done. apply IH.
Qed.

End Replace.

(** X7.  [_getErrorMessage] puts the parameters of the rule into the
    message of the rule.  A message without [$] is the text shown, whatever
    the parameters.  Written with parameters that hold no [$], the first
    [$1] is replaced by the first parameter and, after it, the first [$2]
    by the second one; what follows is left as it is, a second [$1]
    included. *)
Theorem getErrorMessage_substitutes (before between p1 p2 : string) :
  "$"%char ∉ chars before →
  "$"%char ∉ chars between →
  "$"%char ∉ chars p1 →
  "$"%char ∉ chars p2 →
  (∀ params, _getErrorMessage before params = before) ∧
  (∀ rest,
     _getErrorMessage (before +:+ "$1" +:+ rest) [p1] =
       before +:+ p1 +:+ rest) ∧
  (∀ rest,
     _getErrorMessage (before +:+ "$1" +:+ between +:+ "$2" +:+ rest)
       [p1; p2] =
       before +:+ p1 +:+ between +:+ p2 +:+ rest).
Proof.
  intros Hbefore Hbetween Hp1 Hp2. unfold _getErrorMessage. split_and!.
  - intros params. by apply getErrorMessageFrom_plain.
  - intros rest. simpl.
    change ("$" +:+ JS.toString (0 + 1)) with (String "$" "1").
    change ("$1" +:+ rest) with (String "$" "1" +:+ rest).
    rewrite replace_first by done. by rewrite GetSubstitution_plain.
  - intros rest. simpl.
    change ("$" +:+ JS.toString (0 + 1)) with (String "$" "1").
    change ("$" +:+ JS.toString (1 + 1)) with (String "$" "2").
    change ("$1" +:+ between +:+ "$2" +:+ rest)
      with (String "$" "1" +:+ between +:+ "$2" +:+ rest).
    rewrite replace_first by done. rewrite GetSubstitution_plain by done.
    rewrite <- (append_assoc p1), <- (append_assoc before).
    change ("$2" +:+ rest) with (String "$" "2" +:+ rest).
    rewrite replace_first.
    + rewrite GetSubstitution_plain by done.
      by rewrite !append_assoc.
    + rewrite !chars_app. intros [?|[?|?]%elem_of_app]%elem_of_app; done.
Qed.

(** The message of [range] with the parameters 18 and 60. *)
Lemma getErrorMessage_substitutes_witness :
  _getErrorMessage "Between $1 and $2 years" ["18"; "60"] =
    "Between 18 and 60 years".
Proof.
  destruct (getErrorMessage_substitutes "Between " " and " "18" "60")
    as (_ & _ & H).
  - refine (bool_decide_unpack _ _). vm_compute. exact I.
  - refine (bool_decide_unpack _ _). vm_compute. exact I.
  - refine (bool_decide_unpack _ _). vm_compute. exact I.
  - refine (bool_decide_unpack _ _). vm_compute. exact I.
  - exact (H " years").
Defined.

(** X8.  The parameter of a rule is used as a replacement pattern, not as
    a text: in a message that holds [$1], the parameter [$&] puts the
    placeholder back, [$$] gives one dollar, and [$`] and [$'] copy the
    text before and after the placeholder. *)
Theorem getErrorMessage_parameter_is_pattern (before rest : string) :
  "$"%char ∉ chars before →
  _getErrorMessage (before +:+ "$1" +:+ rest) ["$&"] =
    before +:+ "$1" +:+ rest ∧
  _getErrorMessage (before +:+ "$1" +:+ rest) ["$$"] =
    before +:+ "$" +:+ rest ∧
  _getErrorMessage (before +:+ "$1" +:+ rest) ["$`"] =
    before +:+ before +:+ rest ∧
  _getErrorMessage (before +:+ "$1" +:+ rest) ["$'"] =
    before +:+ rest +:+ rest.
Proof.
  intros Hbefore. unfold _getErrorMessage. simpl.
  change ("$" +:+ JS.toString (0 + 1)) with (String "$" "1").
  change ("$1" +:+ rest) with (String "$" "1" +:+ rest).
  rewrite !replace_first by done. simpl.
  by rewrite !append_nil_r.
Qed.

Lemma getErrorMessage_parameter_is_pattern_witness :
  _getErrorMessage "At least $1 characters" ["$&"] = "At least $1 characters".
Proof.
  destruct (getErrorMessage_parameter_is_pattern "At least " " characters")
    as (H & _).
  - refine (bool_decide_unpack _ _). vm_compute. exact I.
  - exact H.
Defined.

(** * The field descriptors *)

Section FieldsParser.

Context (V : ValidatorsType).

Lemma parseField_Ok_iff form allFieldNames d p :
  parseField V form allFieldNames d = Ok p ↔
  is_Some (form !! FieldType.name d) ∧
  ParsedFieldType.name p = FieldType.name d ∧
  ParsedFieldType.syncCall p = FieldType.syncCall d ∧
  _validatorsParser V (FieldType.valid d) = Ok (ParsedFieldType.validators p) ∧
  (∀ t, FieldType.syncCall d = Some t → truthy t = true → t ∈ allFieldNames).
Proof.
  split.
  - intros H. split; [|by apply (parseField_Ok V form)].
    unfold parseField in H. by destruct (form !! FieldType.name d).
  - intros ([value Hvalue] & Hname & Hsync & Hvalid & Htarget).
    unfold parseField. rewrite Hvalue, Hvalid.
    assert (match FieldType.syncCall d with
            | Some s => truthy s && negb (bool_decide (s ∈ allFieldNames))
            | None => false
            end = false) as ->.
    { destruct (FieldType.syncCall d) as [s|]; [|done].
      destruct (truthy s) eqn:E; [|done].
      by rewrite bool_decide_eq_true_2 by by apply Htarget. }
    destruct p as [n s vals]. simpl in *. by rewrite Hname, Hsync.
Qed.

Lemma parseField_names form allFieldNames ds ps :
  Forall2 (fun d p => parseField V form allFieldNames d = Ok p) ds ps →
  ParsedFieldType.name <$> ps = FieldType.name <$> ds.
Proof.
  induction 1 as [|d p ds ps Hp _ IH]; [done|].
  apply parseField_Ok in Hp as (Hn & _). by rewrite !fmap_cons, Hn, IH.
Qed.

Lemma createErrorFields_lookup fields n :
  _createErrorFields fields !! n =
    if bool_decide (n ∈ ParsedFieldType.name <$> fields)
    then Some (HTMLDivElement.Build false "") else None.
Proof.
  unfold _createErrorFields.
  assert (∀ names (init : gmap string HTMLDivElement.t),
    foldl (fun elements name => <[name := HTMLDivElement.Build false ""]> elements)
      init names !! n =
    if bool_decide (n ∈ names) then Some (HTMLDivElement.Build false "")
    else init !! n) as H.
  { induction names as [|name names IH]; intros init; [done|].
    simpl. rewrite IH. case_bool_decide as Hin.
    - by rewrite bool_decide_eq_true_2 by by right.
    - destruct (decide (n = name)) as [->|Hne].
      + rewrite lookup_insert_eq. by rewrite bool_decide_eq_true_2 by by left.
      + rewrite lookup_insert_ne by done.
        rewrite bool_decide_eq_false_2; [done|].
        by intros [?|?]%elem_of_cons. }
  rewrite H. by case_bool_decide.
Qed.

End FieldsParser.

(** X9.  [_fieldsParser] returns exactly for the descriptor lists in which
    every field has its input in the form, every rule string parses and
    every non-empty [syncCall] names a declared field (itself or a later
    one included); the parsed fields are then the descriptors in their
    order, with name and [syncCall] kept and the rule string parsed.  An
    empty [syncCall] is accepted as it is. *)
Theorem fieldsParser_Ok_iff
    (V : ValidatorsType) (form : HTMLFormElement)
    (fields : list FieldType.t) (parsed : list ParsedFieldType.t) :
  _fieldsParser V form fields = Ok parsed ↔
  Forall2 (fun d p =>
      is_Some (form !! FieldType.name d) ∧
      ParsedFieldType.name p = FieldType.name d ∧
      ParsedFieldType.syncCall p = FieldType.syncCall d ∧
      _validatorsParser V (FieldType.valid d) =
        Ok (ParsedFieldType.validators p) ∧
      (∀ t, FieldType.syncCall d = Some t → truthy t = true →
         t ∈ FieldType.name <$> fields))
    fields parsed.
Proof.
  unfold _fieldsParser. rewrite mapThrow_Ok.
  split; intros H; (eapply Forall2_impl; [exact H|]); intros d p Hp;
    by apply parseField_Ok_iff.
Qed.

(** X10.  A validator that has just been constructed holds no error and no
    value, reports no error, has called nothing and has no callback; its
    fields are the descriptors, and every declared name, and no other,
    has an error element, hidden and empty. *)
Theorem new_starts_clean
    (V : ValidatorsType) (selector : string) (form : option HTMLFormElement)
    (button : option bool) (options : OptionsType) (this : Validator.t) :
  new V selector form button options = Ok this →
  _errors this = ∅ ∧ _valueFields this = ∅ ∧ isError this = false ∧
  calls this = [] ∧
  _onErrorCallback this = false ∧ _onSubmitCallback this = false ∧
  button = Some (_submitButton_disabled this) ∧
  ParsedFieldType.name <$> _fields this = FieldType.name <$> fields options ∧
  (∀ name,
     _errorMessageElements this !! name =
       if bool_decide (name ∈ FieldType.name <$> fields options)
       then Some (HTMLDivElement.Build false "") else None) ∧
  (∀ name, surfaced this name = None).
Proof.
  unfold new.
  destruct form as [form|]; [|done]. destruct button as [disabled|]; [|done].
  destruct (_fieldsParser V form (fields options)) as [parsed|] eqn:E; [|done].
  intros [= <-]. simpl.
  assert (ParsedFieldType.name <$> parsed = FieldType.name <$> fields options)
    as Hnames.
  { unfold _fieldsParser in E. apply mapThrow_Ok in E.
    by apply parseField_names in E. }
  split_and!; try done.
  - intros name. by rewrite createErrorFields_lookup, Hnames.
  - intros name. unfold surfaced. simpl. rewrite createErrorFields_lookup.
    by case_bool_decide.
Qed.

(** The constructor on the declaration of [index.js]. *)
Lemma new_starts_clean_witness :
  let this := constructed input indexFields in
  new Validator.validators ".my-form" (Some indexForm) (Some false)
    indexOptions = Ok this ∧
  isError this = false ∧ surfaced this "email" = None.
Proof.
  intros this.
  assert (new Validator.validators ".my-form" (Some indexForm) (Some false)
            indexOptions = Ok this) as Hnew by (vm_compute; reflexivity).
  split; [exact Hnew|].
  destruct (new_starts_clean Validator.validators ".my-form"
              (Some indexForm) (Some false) indexOptions this Hnew)
    as (_ & _ & Hclean & _ & _ & _ & _ & _ & _ & Hhidden).
  split; [exact Hclean | exact (Hhidden "email")].
Defined.

(** * The factory *)

Section Factory.

Lemma find_instance (instances : list (string * Validator.t)) selector this :
  NoDup instances.*1 →
  (selector, this) ∈ instances →
  List.find (fun ins => bool_decide (selector = ins.1)) instances =
    Some (selector, this).
Proof.
  induction instances as [|[s i] instances IH]; [by intros _ ?%elem_of_nil|].
  intros [Hs Hdup]%NoDup_cons [[= <- <-]|Hin]%elem_of_cons; simpl.
  - by rewrite bool_decide_eq_true_2.
  - rewrite bool_decide_eq_false_2; [by apply IH|].
    intros <-. apply Hs. apply list_elem_of_fmap. by exists (selector, this).
Qed.

Lemma find_instance_None (instances : list (string * Validator.t)) selector :
  List.find (fun ins => bool_decide (selector = ins.1)) instances = None →
  selector ∉ instances.*1.
Proof.
  induction instances as [|[s i] instances IH]; [by intros _ ?%elem_of_nil|].
  simpl. case_bool_decide as Hs; [done|].
  intros Hfind [?|?]%elem_of_cons; [done | by apply IH].
Qed.

Lemma find_instance_Some (instances : list (string * Validator.t)) selector ins :
  List.find (fun ins => bool_decide (selector = ins.1)) instances = Some ins →
  ins.1 = selector ∧ ins ∈ instances.
Proof.
  induction instances as [|[s i] instances IH]; [done|].
  simpl. case_bool_decide as Hs.
  - intros [= <-]. split; [done | by left].
  - intros H. destruct (IH H). split; [done | by right].
Qed.

End Factory.

(** X11.  For a selector that has its validator, [create] returns this
    validator and nothing else happens: the static fields are the ones
    from before, and neither the document nor the options are looked at,
    so that options which the constructor would refuse go unnoticed. *)
Theorem create_known_selector
    (S : Static.t) (selector : string) (this : Validator.t)
    (form : option HTMLFormElement) (button : option bool)
    (options : OptionsType) :
  NoDup (Static.instances S).*1 →
  (selector, this) ∈ Static.instances S →
  create S selector form button options = (S, inr this).
Proof.
  intros Hdup Hin. unfold create.
  by rewrite (find_instance _ selector this Hdup Hin).
Qed.

(** A second call for the form of [index.js], with no form in the
    document any more. *)
Lemma create_known_selector_witness :
  let S :=
    Static.Build Validator.validators
      [(".my-form", started input indexFields)] false in
  create S ".my-form" None None (BuildOptions input "" []) =
    (S, inr (started input indexFields)).
Proof.
  intros S. apply create_known_selector.
  - apply NoDup_singleton.
  - by left.
Defined.

(** X12.  [create] keeps one validator per selector and never changes the
    registry.  When it returns, the validator is the one kept under the
    selector.  When it throws, it is the constructor that threw, for the
    form, the button or the fields, and never with its refusal; no
    validator is added, and the flag [callConstructorOfFactory] stays set:
    from then on the constructor no longer refuses to be called
    directly. *)
Theorem create_spec
    (S : Static.t) (selector : string) (form : option HTMLFormElement)
    (button : option bool) (options : OptionsType)
    (S' : Static.t) (r : ConstructorError + Validator.t) :
  NoDup (Static.instances S).*1 →
  create S selector form button options = (S', r) →
  NoDup (Static.instances S').*1 ∧
  Static.validators S' = Static.validators S ∧
  match r with
  | inr this =>
      (selector, this) ∈ Static.instances S' ∧
      (S' = S ∨
       (selector ∉ (Static.instances S).*1) ∧
       new (Static.validators S) selector form button options = Ok this ∧
       Static.instances S' = Static.instances S ++ [(selector, this)] ∧
       Static.callConstructorOfFactory S' = false)
  | inl e =>
      (selector ∉ (Static.instances S).*1) ∧
      (∃ e', e = Thrown e' ∧
         new (Static.validators S) selector form button options = Throw e') ∧
      S' = withFlag S true ∧
      ∀ selector' form' button' options',
        construct S' selector' form' button' options' ≠ inl CallOnlyFactory
  end.
Proof.
  intros Hdup. unfold create.
  destruct (List.find _ (Static.instances S)) as [ins|] eqn:Efind.
  - intros [= <- <-]. apply find_instance_Some in Efind as [Hsel Hin].
    destruct ins as [s i]. simpl in *. subst s.
    split_and!; [done|done|done|by left].
  - apply find_instance_None in Efind. unfold construct. simpl.
    destruct (new (Static.validators S) selector form button options)
      as [this|e] eqn:Enew.
    + intros [= <- <-]. simpl. split_and!; [|done| |].
      * rewrite fmap_app. apply NoDup_app. split_and!; [done| |].
        -- intros s Hs [->|?%elem_of_nil]%elem_of_cons; done.
        -- apply NoDup_singleton.
      * apply elem_of_app. right. by left.
      * by right.
    + intros [= <- <-]. simpl. split_and!;
        [done|done|done|eexists; split; reflexivity|done|].
      intros selector' form' button' options'.
      by destruct (new (Static.validators S) selector' form' button' options').
Qed.

(** The first call for a form that is not in the document. *)
Lemma create_spec_witness :
  create loaded ".my-form" None (Some false) indexOptions =
    (withFlag loaded true, inl (Thrown (SelectorNotFound ".my-form"))) ∧
  construct (withFlag loaded true) ".my-form" (Some indexForm) (Some false)
    indexOptions ≠ inl CallOnlyFactory.
Proof.
  split; [reflexivity|].
  destruct (create_spec loaded ".my-form" None (Some false) indexOptions
              (withFlag loaded true)
              (inl (Thrown (SelectorNotFound ".my-form"))))
    as (_ & _ & _ & _ & _ & H).
  - apply NoDup_nil_2.
  - reflexivity.
  - apply H.
Defined.

(** * The page follows the store *)

Section Display.

Context (V : ValidatorsType).

Implicit Types (errors : ErrorType) (g : string) (this : Validator.t).


Lemma firstShown_empty g order : firstShown ∅ g order = None.
Proof.
  induction order as [|r order IH]; [done|].
  simpl. unfold errorOf. by rewrite lookup_empty.
Qed.













End Display.



(** Under an inherited name the page and the store come apart.  The
    fields [constructor] and [name]: the empty value of [constructor]
    fails; after the reset its element is hidden and the store has no
    key, but the message is still on the inherited member, and the next
    evaluation, of the valid value [abcd] of [name], shows it again. *)
Lemma stale_message_after_reset :
  let failed :=
    typed Validator.validators constructorField ""
      (Some (started input [constructorField; nameField])) in
  let cleared := failed ≫= resetAllErrors in
  let later := typed Validator.validators nameField "abcd" cleared in
  (fun this =>
     (isError this, surfaced this "constructor",
      firstShown (_errors this) "constructor" (order constructorField)))
    <$> cleared =
    Some (false, None, Some "Поле обязательно для заполнения") ∧
  (fun this =>
     (isError this, ownKeys (_errors this), surfaced this "constructor"))
    <$> later =
    Some (false, ∅, Some "Поле обязательно для заполнения").
Proof. cbv zeta. split; vm_compute; reflexivity. Qed.

(** * What a validator keeps *)

Section Keeps.

Context (V : ValidatorsType).

Implicit Types (this : Validator.t).

Lemma extends_refl this : extends this this.
Proof.
  split; try done.
  - exists []. by rewrite app_nil_r.
  - intros g ?. by left.
Qed.

Lemma extends_trans this1 this2 this3 :
  extends this1 this2 → extends this2 this3 → extends this1 this3.
Proof.
  intros [Hf1 Hm1 He1 Hb1 Hoe1 Hos1 [cs1 Hc1] Hv1 Hd1]
         [Hf2 Hm2 He2 Hb2 Hoe2 Hos2 [cs2 Hc2] Hv2 Hd2].
  split.
  - congruence.
  - congruence.
  - congruence.
  - intros H. by apply Hb1, Hb2.
  - intros H. by apply Hoe2, Hoe1.
  - intros H. by apply Hos2, Hos1.
  - exists (cs1 ++ cs2). by rewrite Hc2, Hc1, app_assoc.
  - intros g H. by apply Hv2, Hv1.
  - intros g H. destruct (Hd2 g H) as [H2|H2].
    + by apply Hd1.
    + right. by rewrite <- Hf1.
Qed.

Lemma eventHandler_extends this value field this' :
  field ∈ _fields this →
  _eventHandler V this value field = Some this' →
  extends this this'.
Proof.
  intros Hf. unfold _eventHandler.
  destruct (checkValidators _ _ _ _ _ _ _ _) as [errors|]; [|done]. simpl.
  destruct (_toggleErrorMessages _ _ _) as [elements|]; [|done]. simpl.
  intros [= <-]. split; simpl; try done.
  - destruct (_ && _); [by eexists | exists []; by rewrite app_nil_r].
  - intros g H. apply lookup_insert_is_Some'. by right.
  - intros g [<-|[_ H]]%lookup_insert_is_Some; [right|by left].
    apply list_elem_of_fmap. by exists field.
Qed.

Lemma find_field_Some (fields : list ParsedFieldType.t) vname field :
  List.find (fun f => bool_decide (ParsedFieldType.name f = vname)) fields =
    Some field →
  field ∈ fields ∧ ParsedFieldType.name field = vname.
Proof.
  induction fields as [|f fields IH]; [done|]. simpl.
  case_bool_decide as Hn.
  - intros [= <-]. split; [by left | done].
  - intros H. destruct (IH H). split; [by right | done].
Qed.

Lemma syncCall_extends this vname this' :
  _syncCall V this vname = Some this' → extends this this'.
Proof.
  intros [->|(d & value & Hd & _ & H)]%syncCall_inv; [apply extends_refl|].
  by apply (eventHandler_extends this value d).
Qed.

Lemma inputListener_extends this field value this' :
  field ∈ _fields this →
  inputListener V this field value = Some this' →
  extends this this'.
Proof.
  intros Hf. unfold inputListener.
  destruct (_eventHandler V this value field) as [this1|] eqn:E; [|done].
  simpl. apply (eventHandler_extends _ _ _ _ Hf) in E.
  destruct (ParsedFieldType.syncCall field) as [s|];
    [destruct (truthy s)|]; try (intros [= <-]; exact E).
  intros H. apply syncCall_extends in H. by apply (extends_trans _ this1).
Qed.

Lemma submitFields_extends form fields this this' :
  (∀ f, f ∈ fields → f ∈ _fields this) →
  submitFields V form fields this = Some this' →
  extends this this'.
Proof.
  revert this. induction fields as [|field fields IH]; intros this Hsub.
  - intros [= <-]. apply extends_refl.
  - simpl. destruct (form !! ParsedFieldType.name field) as [value|]; [|done].
    simpl.
    destruct (_eventHandler V this value field) as [this1|] eqn:E; [|done].
    simpl. intros H.
    apply eventHandler_extends in E; [|apply Hsub; by left].
    apply (extends_trans _ this1); [done|]. apply IH; [|done].
    intros f ?. rewrite (extends_fields _ _ E). apply Hsub. by right.
Qed.

Lemma withCalls_extends this cs :
  extends this (withCalls this (calls this ++ cs)).
Proof.
  split; simpl; try done; [by exists cs | intros g ?; by left].
Qed.

Lemma submitListener_extends this form this' :
  submitListener V this form = Some this' → extends this this'.
Proof.
  unfold submitListener.
  destruct (submitFields V form (_fields this) this) as [this1|] eqn:E; [|done].
  simpl. intros [= <-].
  apply submitFields_extends in E; [|done].
  apply (extends_trans _ this1); [done|].
  destruct (isError this1).
  - apply (extends_trans _ (withCalls this1 (calls this1 ++ [preventDefault])));
      [apply withCalls_extends|].
    destruct (negb _ && _); [apply withCalls_extends | apply extends_refl].
  - destruct (negb _ && _); [apply withCalls_extends | apply extends_refl].
Qed.

Lemma resetAllErrors_extends this this' :
  resetAllErrors this = Some this' → extends this this'.
Proof.
  unfold resetAllErrors.
  destruct (hideErrorMessages _ _) as [elements|]; [|done]. simpl.
  intros [= <-]. split; simpl; try done.
  - exists []. by rewrite app_nil_r.
  - intros g ?. by left.
Qed.

Lemma step_extends this this' : step V this this' → extends this this'.
Proof.
  intros [this0 field value this1 _ Hf H|this0 form this1 H
         |this0 this1 H|this0|this0].
  - by apply (inputListener_extends this0 field value).
  - by apply (submitListener_extends this0 form).
  - by apply resetAllErrors_extends.
  - split; simpl; try done;
      [exists []; by rewrite app_nil_r | intros g ?; by left].
  - split; simpl; try done;
      [exists []; by rewrite app_nil_r | intros g ?; by left].
Qed.

Lemma run_extends this this' : rtc (step V) this this' → extends this this'.
Proof.
  induction 1 as [this|this this1 this' Hstep _ IH]; [apply extends_refl|].
  apply (extends_trans _ this1); [by apply step_extends | done].
Qed.

End Keeps.

(** X14.  What no sequence of inputs, submissions, resets and
    registrations does: it never changes the declared fields or the mode,
    never disables the submit button (the only write to it, in
    [resetAllErrors], enables it), never unregisters a callback, never
    takes back a call, never drops a value from the snapshot, and never
    records a value under a name that is not a declared field. *)
Theorem run_keeps
    (V : ValidatorsType) (this this' : Validator.t) :
  rtc (step V) this this' →
  _fields this' = _fields this ∧
  _mode this' = _mode this ∧
  (_submitButton_disabled this' = true → _submitButton_disabled this = true) ∧
  (_onErrorCallback this = true → _onErrorCallback this' = true) ∧
  (_onSubmitCallback this = true → _onSubmitCallback this' = true) ∧
  (∃ cs, calls this' = calls this ++ cs) ∧
  (∀ g, is_Some (_valueFields this !! g) → is_Some (_valueFields this' !! g)) ∧
  (∀ g, is_Some (_valueFields this' !! g) →
        is_Some (_valueFields this !! g) ∨
        g ∈ ParsedFieldType.name <$> _fields this).
Proof.
  intros Hrun. by destruct (run_extends V this this' Hrun).
Qed.

(** A reset of the state with a recorded error. *)
Lemma run_keeps_witness :
  match resetAllErrors failedName with
  | Some this' =>
      _fields this' = _fields failedName ∧
      ∀ g, is_Some (_valueFields failedName !! g) →
           is_Some (_valueFields this' !! g)
  | None => False
  end.
Proof.
  destruct (resetAllErrors failedName) as [this'|] eqn:E;
    [|vm_compute in E; discriminate].
  destruct (run_keeps Validator.validators failedName this')
    as (Hfields & _ & _ & _ & _ & _ & Hvalues & _).
  - apply rtc_once. by apply step_reset.
  - split; [exact Hfields | exact Hvalues].
Defined.

(** * Evaluating again *)

Section Again.

Context (V : ValidatorsType).

Implicit Types (errors : ErrorType) (g : string) (this : Validator.t).





End Again.




Section Examples.

Lemma fresh_displays (this : Validator.t) (fields : list ParsedFieldType.t) :
  _errors this = ∅ →
  _errorMessageElements this = _createErrorFields fields →
  displaysStore this.
Proof.
  intros Herrors Helements f _ _. rewrite Herrors, firstShown_empty.
  unfold surfaced. rewrite Helements, createErrorFields_lookup.
  by case_bool_decide.
Qed.


End Examples.




(** * The pattern of [email] *)

Section Regex.

Implicit Types (r : JS.regex) (s l : list ascii) (c : ascii).

Lemma Matches_Void_inv l : ¬ Matches JS.Void l.
Proof. intros H. inversion H. Qed.

Lemma Matches_Eps_inv l : Matches JS.Eps l → l = [].
Proof. intros H. by inversion H. Qed.

Lemma Matches_Class_inv p l :
  Matches (JS.Class p) l → ∃ c, l = [c] ∧ p c = true.
Proof. intros H. inversion H; subst. by eexists. Qed.

Lemma Matches_Seq_inv r1 r2 l :
  Matches (JS.Seq r1 r2) l →
  ∃ l1 l2, l = l1 ++ l2 ∧ Matches r1 l1 ∧ Matches r2 l2.
Proof. intros H. inversion H; subst. by eexists _, _. Qed.

Lemma Matches_Alt_inv r1 r2 l :
  Matches (JS.Alt r1 r2) l → Matches r1 l ∨ Matches r2 l.
Proof. intros H. inversion H; subst; [by left | by right]. Qed.

Lemma nullable_spec r : JS.nullable r = true ↔ Matches r [].
Proof.
  split.
  - induction r as [| |p|r1 IH1 r2 IH2|r1 IH1 r2 IH2|r IH]; simpl; try done.
    + intros _. constructor.
    + intros [H1 H2]%andb_true_iff.
      apply (Matches_Seq r1 r2 [] []); [by apply IH1 | by apply IH2].
    + intros [H|H]%orb_true_iff;
        [apply Matches_Alt_l; by apply IH1 | apply Matches_Alt_r; by apply IH2].
    + intros _. constructor.
  - intros H. remember [] as l eqn:El.
    induction H as [|p c Hp|r1 r2 s1 s2 H1 IH1 H2 IH2|r1 r2 s H IH|r1 r2 s H IH
                   |r|r s1 s2 H1 IH1 H2 IH2]; simpl; try done.
    + apply app_eq_nil in El as [-> ->].
      by rewrite IH1, IH2.
    + by rewrite IH.
    + rewrite IH by done. by rewrite orb_true_r.
Qed.

Lemma deriv_sound c r l : Matches (JS.deriv c r) l → Matches r (c :: l).
Proof.
  revert l. induction r as [| |p|r1 IH1 r2 IH2|r1 IH1 r2 IH2|r IH];
    intros l; simpl.
  - by intros ?%Matches_Void_inv.
  - by intros ?%Matches_Void_inv.
  - destruct (p c) eqn:Hp; [|by intros ?%Matches_Void_inv].
    intros ->%Matches_Eps_inv. by constructor.
  - assert (Matches (JS.Seq (JS.deriv c r1) r2) l →
            Matches (JS.Seq r1 r2) (c :: l)) as Hseq.
    { intros (l1 & l2 & -> & H1 & H2)%Matches_Seq_inv.
      apply (Matches_Seq r1 r2 (c :: l1) l2); [by apply IH1 | done]. }
    destruct (JS.nullable r1) eqn:Hn; [|exact Hseq].
    intros [H|H]%Matches_Alt_inv; [by apply Hseq|].
    apply (Matches_Seq r1 r2 [] (c :: l)); [by apply nullable_spec|].
    by apply IH2.
  - intros [H|H]%Matches_Alt_inv;
      [apply Matches_Alt_l; by apply IH1 | apply Matches_Alt_r; by apply IH2].
  - intros (l1 & l2 & -> & H1 & H2)%Matches_Seq_inv.
    apply (Matches_Star_cons r (c :: l1) l2); [by apply IH | done].
Qed.

Lemma deriv_complete c r l : Matches r (c :: l) → Matches (JS.deriv c r) l.
Proof.
  intros H. remember (c :: l) as cl eqn:E. revert l E.
  induction H as [|p c0 Hp|r1 r2 s1 s2 H1 IH1 H2 IH2|r1 r2 s H IH|r1 r2 s H IH
                 |r|r s1 s2 H1 IH1 H2 IH2]; intros l E; simpl.
  - done.
  - injection E as -> <-. rewrite Hp. constructor.
  - destruct s1 as [|c1 s1]; simpl in E.
    + subst s2. rewrite (proj2 (nullable_spec r1) H1).
      apply Matches_Alt_r. by apply IH2.
    + injection E as -> <-.
      assert (Matches (JS.Seq (JS.deriv c r1) r2) (s1 ++ s2)) as Hseq
        by (apply Matches_Seq; [by apply IH1 | done]).
      destruct (JS.nullable r1); [by apply Matches_Alt_l | done].
  - apply Matches_Alt_l. by apply IH.
  - apply Matches_Alt_r. by apply IH.
  - done.
  - destruct s1 as [|c1 s1]; simpl in E.
    + by apply IH2.
    + injection E as -> <-.
      apply (Matches_Seq (JS.deriv c r) (JS.Star r)); [by apply IH1 | done].
Qed.

(** [test] decides the language of the pattern. *)
Lemma test_spec r (s : string) : JS.test r s = true ↔ Matches r (chars s).
Proof.
  revert r. induction s as [|c s IH]; intros r; simpl.
  - apply nullable_spec.
  - rewrite IH. split; [apply deriv_sound | apply deriv_complete].
Qed.

Lemma Matches_Star_Class p l :
  Matches (JS.Star (JS.Class p)) l ↔ Forall (fun c => p c = true) l.
Proof.
  split.
  - intros H. remember (JS.Star (JS.Class p)) as r eqn:E.
    induction H as [|p0 c Hp|r1 r2 s1 s2 H1 IH1 H2 IH2|r1 r2 s H IH|r1 r2 s H IH
                   |r|r s1 s2 H1 IH1 H2 IH2]; try done.
    injection E as ->.
    apply Matches_Class_inv in H1 as (c & -> & Hc).
    apply Forall_cons. split; [done | by apply IH2].
  - induction 1 as [|c l Hc _ IH]; [constructor|].
    apply (Matches_Star_cons _ [c] l); [by constructor | done].
Qed.

Lemma Matches_Plus_Class p l :
  Matches (JS.Plus (JS.Class p)) l ↔ l ≠ [] ∧ Forall (fun c => p c = true) l.
Proof.
  unfold JS.Plus. split.
  - intros (l1 & l2 & -> & (c & -> & Hc)%Matches_Class_inv
              & H2%Matches_Star_Class)%Matches_Seq_inv.
    split; [done|]. by apply Forall_cons.
  - intros [Hne H]. destruct H as [|c l Hc H]; [done|].
    apply (Matches_Seq _ _ [c] l); [by constructor | by apply Matches_Star_Class].
Qed.

Lemma Matches_Opt_Class p l :
  Matches (JS.Opt (JS.Class p)) l ↔
  l = [] ∨ ∃ c, l = [c] ∧ p c = true.
Proof.
  unfold JS.Opt. split.
  - intros [H|H]%Matches_Alt_inv;
      [right; by apply Matches_Class_inv | left; by apply Matches_Eps_inv].
  - intros [->|(c & -> & Hc)];
      [apply Matches_Alt_r; constructor | apply Matches_Alt_l; by constructor].
Qed.

(** [[a-zA-Z]{2,4}] *)
Lemma Matches_letters l :
  let az := JS.Class JS.letter in
  Matches (JS.Seq az (JS.Seq az (JS.Seq (JS.Opt az) (JS.Opt az)))) l ↔
  Forall (fun c => JS.letter c = true) l ∧ (2 ≤ length l ≤ 4)%nat.
Proof.
  intros az. split.
  - intros (l1 & ? & -> & (a & -> & Ha)%Matches_Class_inv
            & (l2 & ? & -> & (b & -> & Hb)%Matches_Class_inv
            & (l3 & l4 & -> & H3%Matches_Opt_Class & H4%Matches_Opt_Class)
                %Matches_Seq_inv)%Matches_Seq_inv)%Matches_Seq_inv.
    destruct H3 as [->|(c & -> & Hc)], H4 as [->|(d & -> & Hd)]; simpl;
      (split; [repeat (apply Forall_cons; split; [done|]); constructor | lia]).
  - intros [Hall Hlen].
    destruct l as [|a [|b [|c [|d [|e l]]]]]; simpl in Hlen; try lia.
    + apply Forall_cons in Hall as [Ha [Hb _]%Forall_cons].
      apply (Matches_Seq _ _ [a] [b]); [by constructor|].
      apply (Matches_Seq _ _ [b] []); [by constructor|].
      apply (Matches_Seq _ _ [] []); apply Matches_Opt_Class; by left.
    + apply Forall_cons in Hall as [Ha [Hb [Hc _]%Forall_cons]%Forall_cons].
      apply (Matches_Seq _ _ [a] [b; c]); [by constructor|].
      apply (Matches_Seq _ _ [b] [c]); [by constructor|].
      apply (Matches_Seq _ _ [c] []); apply Matches_Opt_Class;
        [right; by eexists | by left].
    + apply Forall_cons in Hall
        as [Ha [Hb [Hc [Hd _]%Forall_cons]%Forall_cons]%Forall_cons].
      apply (Matches_Seq _ _ [a] [b; c; d]); [by constructor|].
      apply (Matches_Seq _ _ [b] [c; d]); [by constructor|].
      apply (Matches_Seq _ _ [c] [d]); apply Matches_Opt_Class;
        right; by eexists.
Qed.

Lemma Matches_emailPattern l :
  Matches Validator.emailPattern l ↔
  ∃ local domain tld,
    l = local ++ "@"%char :: domain ++ "."%char :: tld ∧
    local ≠ [] ∧ Forall (fun c => emailLocal c = true) local ∧
    domain ≠ [] ∧ Forall (fun c => emailDomain c = true) domain ∧
    Forall (fun c => JS.letter c = true) tld ∧ (2 ≤ length tld ≤ 4)%nat.
Proof.
  change Validator.emailPattern with
    (JS.Seq (JS.Plus (JS.Class emailLocal))
       (JS.Seq (JS.Class (Ascii.eqb "@"))
          (JS.Seq (JS.Plus (JS.Class emailDomain))
             (JS.Seq (JS.Class (Ascii.eqb "."))
                (JS.Seq (JS.Class JS.letter)
                   (JS.Seq (JS.Class JS.letter)
                      (JS.Seq (JS.Opt (JS.Class JS.letter))
                         (JS.Opt (JS.Class JS.letter))))))))).
  split.
  - intros (local & ? & -> & [Hl1 Hl2]%Matches_Plus_Class
            & (? & ? & -> & (at' & -> & Hat)%Matches_Class_inv
            & (domain & ? & -> & [Hd1 Hd2]%Matches_Plus_Class
            & (? & tld & -> & (dot & -> & Hdot)%Matches_Class_inv
            & [Ht1 Ht2]%Matches_letters)%Matches_Seq_inv)%Matches_Seq_inv)
                %Matches_Seq_inv)%Matches_Seq_inv.
    apply Ascii.eqb_eq in Hat as <-. apply Ascii.eqb_eq in Hdot as <-.
    by exists local, domain, tld.
  - intros (local & domain & tld & -> & Hl1 & Hl2 & Hd1 & Hd2 & Ht1 & Ht2).
    apply Matches_Seq; [by apply Matches_Plus_Class|].
    apply (Matches_Seq _ _ ["@"%char]); [by constructor|].
    apply Matches_Seq; [by apply Matches_Plus_Class|].
    apply (Matches_Seq _ _ ["."%char]); [by constructor|].
    by apply Matches_letters.
Qed.

End Regex.

(** X18.  The rule [email] passes exactly for the values that, without
    the white space around them, are a local part, [@], a domain, a dot
    and an ending: the local part is one or more letters, digits, dots,
    underscores and hyphens, the domain one or more letters, digits, dots
    and hyphens, and the ending two to four letters. *)
Theorem email_accepts
    (this : gmap string string) (value : string) (args : list string) :
  InstanceValidatorType.call Validator.email this value args = true ↔
  ∃ local domain tld,
    chars (JS.trim value) = local ++ "@"%char :: domain ++ "."%char :: tld ∧
    local ≠ [] ∧ Forall (fun c => emailLocal c = true) local ∧
    domain ≠ [] ∧ Forall (fun c => emailDomain c = true) domain ∧
    Forall (fun c => JS.letter c = true) tld ∧ (2 ≤ length tld ≤ 4)%nat.
Proof.
  change (InstanceValidatorType.call Validator.email this value args)
    with (JS.test Validator.emailPattern (JS.trim value)).
  rewrite test_spec. apply Matches_emailPattern.
Qed.

(** * White space *)

Section Trim.

Implicit Types (s t : string) (c : ascii).

Local Abbreviation blank := (fun c => JS.isWhiteSpace c = true).

Lemma chars_rev_app s t :
  chars (String.rev_app s t) = reverse (chars s) ++ chars t.
Proof.
  revert t. induction s as [|c s IH]; intros t; [done|].
  simpl. rewrite IH. simpl. rewrite reverse_cons. by rewrite <- app_assoc.
Qed.

Lemma chars_rev s : chars (String.rev s) = reverse (chars s).
Proof. unfold String.rev. rewrite chars_rev_app. simpl. by rewrite app_nil_r. Qed.

Lemma rev_involutive s : String.rev (String.rev s) = s.
Proof. apply chars_inj. by rewrite !chars_rev, reverse_involutive. Qed.

Lemma chars_nil s : chars s = [] ↔ s = "".
Proof. by destruct s. Qed.

Lemma rev_nil s : String.rev s = "" ↔ s = "".
Proof.
  rewrite <- !chars_nil, chars_rev. split; [|by intros ->].
  intros H. apply (f_equal reverse) in H. by rewrite reverse_involutive in H.
Qed.

(** [trimStart] stops at the first code unit that is not white space. *)
Lemma trimStart_head s :
  JS.trimStart s = "" ∨
  ∃ c t, JS.trimStart s = String c t ∧ JS.isWhiteSpace c = false.
Proof.
  induction s as [|c s IH]; [by left|]. simpl.
  destruct (JS.isWhiteSpace c) eqn:E; [done|]. right. by eexists _, _.
Qed.

Lemma trimStart_nil s : JS.trimStart s = "" ↔ Forall blank (chars s).
Proof.
  induction s as [|c s IH]; simpl; [done|].
  destruct (JS.isWhiteSpace c) eqn:E.
  - rewrite IH. split; [by constructor | by intros [_ ?]%Forall_cons].
  - split; [done|]. intros [? _]%Forall_cons. congruence.
Qed.

Lemma trimStart_id c t :
  JS.isWhiteSpace c = false → JS.trimStart (String c t) = String c t.
Proof. simpl. by intros ->. Qed.

Lemma trimEnd_nil s : JS.trimEnd s = "" ↔ Forall blank (chars s).
Proof.
  unfold JS.trimEnd. rewrite rev_nil, trimStart_nil, chars_rev.
  apply Forall_reverse.
Qed.

Lemma trim_nil s : JS.trim s = "" ↔ Forall blank (chars s).
Proof.
  unfold JS.trim. rewrite trimEnd_nil. split.
  - intros H. apply trimStart_nil.
    destruct (trimStart_head s) as [E|(c & t & E & Hc)]; [done|].
    rewrite E in H. apply Forall_cons in H as [H _]. congruence.
  - intros H. apply trimStart_nil in H. by rewrite H.
Qed.

(** A text that neither starts nor ends with white space is its own
    trimmed text. *)
Lemma trim_id s :
  (∀ c, head (chars s) = Some c → JS.isWhiteSpace c = false) →
  (∀ c, last (chars s) = Some c → JS.isWhiteSpace c = false) →
  JS.trim s = s.
Proof.
  intros Hhead Hlast. unfold JS.trim, JS.trimEnd.
  assert (JS.trimStart s = s) as ->.
  { destruct s as [|c t]; [done|]. apply trimStart_id. by apply Hhead. }
  assert (JS.trimStart (String.rev s) = String.rev s) as ->.
  { destruct (String.rev s) as [|c t] eqn:E; [done|].
    apply (f_equal chars) in E. rewrite chars_rev in E. simpl in E.
    apply (f_equal reverse) in E.
    rewrite reverse_involutive, reverse_cons in E.
    apply trimStart_id, Hlast. by rewrite E, last_snoc. }
  apply rev_involutive.
Qed.

Lemma length_nil s : String.length s = 0%nat ↔ s = "".
Proof. by destruct s. Qed.

End Trim.

(** X19.  For a value whose code units are all below 256 (the strings
    of this development), the value is empty for the engine exactly when
    it is made only of the white space that [trim] strips in that range:
    tab, line feed, vertical tab, form feed, carriage return, space,
    no-break space.  ([trim] also strips the code units U+1680,
    U+2000 to U+200A, U+2028, U+2029, U+202F, U+205F, U+3000 and U+FEFF,
    which are outside the range.)  The rule [required] passes exactly on
    the values that are not empty.  On an empty value [number] passes,
    for the empty text is the number 0, and [email] fails. *)
Theorem isEmpty_whitespace
    (this : gmap string string) (value : string) (args : list string) :
  (isEmpty value = true ↔
   Forall (fun c => JS.isWhiteSpace c = true) (chars value)) ∧
  InstanceValidatorType.call Validator.required this value args =
    negb (isEmpty value) ∧
  (isEmpty value = true →
   JS.Number (Some value) = JS.ofLength 0 ∧
   InstanceValidatorType.call Validator.number this value args = true ∧
   InstanceValidatorType.call Validator.email this value args = false).
Proof.
  split_and!.
  - rewrite isEmpty_true, length_nil. apply trim_nil.
  - unfold isEmpty. simpl. by destruct (String.length (JS.trim value)).
  - intros Hempty%isEmpty_trim.
    assert (JS.Number (Some value) = JS.ofLength 0) as Hzero.
    { simpl. unfold JS.StringToNumber. by rewrite Hempty. }
    split_and!; [done| |].
    + simpl. change (JS.StringToNumber value) with (JS.Number (Some value)).
      by rewrite Hzero.
    + simpl. by rewrite Hempty.
Qed.

(** * Decimal numerals *)

Section Numerals.

Import QArith_base Qreduction.
Local Open Scope Z_scope.

Lemma Qred_inject_Z v : Qred (inject_Z v) = inject_Z v.
Proof.
  unfold Qred, inject_Z.
  pose proof (Z.ggcd_gcd v 1) as Hg.
  pose proof (Z.ggcd_correct_divisors v 1) as Hd.
  destruct (Z.ggcd v 1) as (g & a & b). simpl in *.
  rewrite Z.gcd_1_r in Hg. subst g. destruct Hd as [Ha Hb].
  rewrite !Z.mul_1_l in *. by subst.
Qed.

Lemma Qred_scaled v k :
  0 <= k → Qred (Qmake (v * 2 ^ k) (Z.to_pos (2 ^ k))) = inject_Z v.
Proof.
  intros Hk. rewrite <- (Qred_inject_Z v). apply Qred_complete.
  unfold Qeq, inject_Z. simpl. rewrite Z2Pos.id by by apply Z.pow_pos_nonneg.
  lia.
Qed.

(** An integer below [2 ^ 53] is a binary64 value. *)
Lemma round64_exact v :
  0 <= v < 2 ^ 53 → JS.round64 (inject_Z v) = JS.Finite (inject_Z v).
Proof.
  intros [H0 H53]. unfold JS.round64.
  change (Qnum (inject_Z v)) with v. change (Qden (inject_Z v)) with 1%positive.
  destruct v as [|p|p]; [done| |lia].
  unfold JS.roundPositive. change (Z.log2 1) with 0. rewrite Z.sub_0_r.
  set (e0 := Z.log2 (Z.pos p)).
  assert (0 <= e0 <= 52) as He0.
  { split; [apply Z.log2_nonneg|].
    apply Z.lt_succ_r. by apply Z.log2_lt_pow2. }
  assert (2 ^ e0 <= Z.pos p) as Hlow by (apply Z.log2_spec; lia).
  unfold JS.scale2 at 1. rewrite (proj2 (Z.leb_le 0 e0)) by lia.
  cbv beta iota. rewrite Z.mul_1_l.
  rewrite (proj2 (Z.leb_le (2 ^ e0) (Z.pos p))) by done.
  rewrite Z.max_l by lia.
  unfold JS.scale2. destruct (0 <=? e0 - 52) eqn:Eu.
  - apply Z.leb_le in Eu. assert (e0 - 52 = 0) as -> by lia.
    cbv beta iota. change (1 * 2 ^ 0) with 1. change (2 ^ 0) with 1.
    rewrite Z.div_1_r, Z.mod_1_r, Z.mul_1_r.
    change (1 <? 2 * 0) with false. change (1 =? 2 * 0) with false.
    cbv beta iota. simpl orb. cbv iota.
    rewrite (proj2 (Z.leb_gt (2 ^ 1024) (Z.pos p))); [done|].
    apply Z.lt_trans with (2 ^ 53); [done|]. by apply Z.pow_lt_mono_r.
  - cbv beta iota. rewrite Z.div_1_r, Z.mod_1_r.
    change (1 <? 2 * 0) with false. change (1 =? 2 * 0) with false.
    simpl orb. cbv iota.
    apply Z.leb_gt in Eu. f_equal. apply Qred_scaled. lia.
Qed.

End Numerals.

Section Decimal.

Import QArith_base.
Local Open Scope Z_scope.

Implicit Types (d : Decimal.uint).

Lemma digit_not_blank c : JS.digit c = true → JS.isWhiteSpace c = false.
Proof.
  destruct c as [[] [] [] [] [] [] [] []]; vm_compute; congruence.
Qed.

Lemma digit_plain c :
  JS.digit c = true →
  Ascii.eqb c "+" = false ∧ Ascii.eqb c "-" = false ∧
  Ascii.eqb c "." = false ∧ Ascii.eqb c "I" = false.
Proof.
  destruct c as [[] [] [] [] [] [] [] []]; vm_compute; (done || congruence).
Qed.

Lemma string_of_uint_digits d :
  Forall (fun c => JS.digit c = true) (chars (NilEmpty.string_of_uint d)).
Proof. induction d; simpl; by constructor. Qed.

Lemma string_of_uint_nil d : NilEmpty.string_of_uint d = "" → d = Decimal.Nil.
Proof. by destruct d. Qed.

Lemma trim_string_of_uint d :
  JS.trim (NilEmpty.string_of_uint d) = NilEmpty.string_of_uint d.
Proof.
  pose proof (string_of_uint_digits d) as Hd.
  apply trim_id; intros c Hc; apply digit_not_blank.
  - apply head_Some in Hc as [l Hl]. rewrite Hl in Hd.
    by apply Forall_cons in Hd as [? _].
  - apply last_Some in Hc as [l Hl]. rewrite Hl in Hd.
    by apply Forall_app in Hd as [_ [? _]%Forall_cons].
Qed.

(** The digits of a numeral are read as its value. *)
Lemma digits_string_of_uint d (a count : nat) :
  JS.digits 10 (Z.of_nat a) count (NilEmpty.string_of_uint d) =
    (Z.of_nat (Nat.of_uint_acc d a), (count + Decimal.nb_digits d)%nat, "").
Proof.
  revert a count.
  induction d as [|d IH|d IH|d IH|d IH|d IH|d IH|d IH|d IH|d IH|d IH];
    intros a count;
    [simpl; by rewrite Nat.add_0_r|..];
    cbn [NilEmpty.string_of_uint Nat.of_uint_acc Decimal.nb_digits JS.digits];
    match goal with
    | |- context [JS.digitValue ?c] =>
        let v := eval vm_compute in (JS.digitValue c) in
        change (JS.digitValue c) with v
    end;
    cbv iota beta;
    match goal with
    | |- context [?k <? 10] => change (k <? 10) with true
    end;
    cbv iota;
    match goal with
    | |- JS.digits 10 ?acc _ _ = (Z.of_nat (Nat.of_uint_acc _ ?n), _, _) =>
        replace acc with (Z.of_nat n) by (rewrite Nat.tail_mul_spec; lia)
    end;
    rewrite IH; by rewrite Nat.add_succ_r.
Qed.

Lemma nb_digits_pos d : d ≠ Decimal.Nil → ∃ n, Decimal.nb_digits d = S n.
Proof. destruct d; [done|..]; intros _; by eexists. Qed.

Lemma NonDecimalIntegerLiteral_string_of_uint d :
  JS.NonDecimalIntegerLiteral (NilEmpty.string_of_uint d) = None.
Proof.
  destruct d as [|d|d|d|d|d|d|d|d|d|d]; try reflexivity; destruct d; reflexivity.
Qed.

(** A numeral without sign, fraction and exponent is the number it
    writes, as long as this number is below [2 ^ 53]. *)
Lemma Number_string_of_uint d :
  d ≠ Decimal.Nil →
  Z.of_nat (Nat.of_uint d) < 2 ^ 53 →
  JS.Number (Some (NilEmpty.string_of_uint d)) = JS.ofLength (Nat.of_uint d).
Proof.
  intros Hd Hv. simpl. unfold JS.StringToNumber.
  rewrite trim_string_of_uint.
  destruct (NilEmpty.string_of_uint d) as [|c s] eqn:Es;
    [by apply string_of_uint_nil in Es|].
  change (String.eqb (String c s) "") with false. cbv iota.
  rewrite <- Es, NonDecimalIntegerLiteral_string_of_uint, Es.
  pose proof (string_of_uint_digits d) as Hdigits. rewrite Es in Hdigits.
  apply Forall_cons in Hdigits as [Hc _].
  destruct (digit_plain c Hc) as (Hplus & Hminus & _ & HI).
  unfold JS.StrDecimalLiteral. rewrite Hplus, Hminus.
  unfold JS.StrUnsignedDecimalLiteral.
  assert (String.eqb (String c s) "Infinity" = false) as ->.
  { simpl. change (Ascii.eqb c "I") with (Ascii.eqb c "I"). by rewrite HI. }
  rewrite <- Es.
  change 0 with (Z.of_nat 0) at 1. rewrite digits_string_of_uint.
  destruct (nb_digits_pos d Hd) as [n ->].
  cbv beta iota. simpl Nat.add. cbv iota.
  simpl. unfold JS.decimalValue. simpl.
  rewrite Z.mul_1_r. fold (Nat.of_uint d).
  by rewrite round64_exact by lia.
Qed.

Lemma to_uint_not_Nil (n : nat) : Nat.to_uint n ≠ Decimal.Nil.
Proof.
  intros H. pose proof (Unsigned.of_to n) as Hn. rewrite H in Hn.
  simpl in Hn. subst n. done.
Qed.

Lemma Number_toString (n : nat) :
  Z.of_nat n < 2 ^ 53 →
  JS.Number (Some (JS.toString n)) = JS.ofLength n.
Proof.
  intros Hn. unfold JS.toString.
  rewrite Number_string_of_uint.
  - by rewrite Unsigned.of_to.
  - apply to_uint_not_Nil.
  - by rewrite Unsigned.of_to.
Qed.

Lemma ge_ofLength (a b : nat) :
  JS.ge (JS.ofLength a) (JS.ofLength b) = (b <=? a)%nat.
Proof.
  unfold JS.ge, JS.le, JS.ofLength, Qle_bool. simpl.
  rewrite !Z.mul_1_r.
  destruct (Nat.leb_spec b a); [apply Z.leb_le | apply Z.leb_gt]; lia.
Qed.

Lemma le_ofLength (a b : nat) :
  JS.le (JS.ofLength a) (JS.ofLength b) = (a <=? b)%nat.
Proof. apply (ge_ofLength b a). Qed.

End Decimal.

(** X20.  What the rules with a bound compare, for bounds and values
    written as decimal numerals below [2 ^ 53]: [minLen] and [maxLen]
    compare the length of the value without the white space around it
    with the bound, [range] does so with its two bounds, and [min] and
    [max] compare the number that the value writes; both comparisons
    include the bound.  Such a value passes [number]. *)
Theorem bound_rules_meaning
    (this : gmap string string) (value : string) (n m v : nat) :
  Z.of_nat n < 2 ^ 53 →
  Z.of_nat m < 2 ^ 53 →
  Z.of_nat v < 2 ^ 53 →
  InstanceValidatorType.call Validator.minLen this value [JS.toString n] =
    (n <=? String.length (JS.trim value))%nat ∧
  InstanceValidatorType.call Validator.maxLen this value [JS.toString n] =
    (String.length (JS.trim value) <=? n)%nat ∧
  InstanceValidatorType.call Validator.range this value
    [JS.toString n; JS.toString m] =
    (n <=? String.length (JS.trim value))%nat
    && (String.length (JS.trim value) <=? m)%nat ∧
  InstanceValidatorType.call Validator.min this (JS.toString v)
    [JS.toString n] = (n <=? v)%nat ∧
  InstanceValidatorType.call Validator.max this (JS.toString v)
    [JS.toString n] = (v <=? n)%nat ∧
  InstanceValidatorType.call Validator.number this (JS.toString v) [] = true.
Proof.
  intros Hn Hm Hv.
  pose proof (Number_toString n Hn) as En.
  pose proof (Number_toString m Hm) as Em.
  pose proof (Number_toString v Hv) as Ev.
  cbn [InstanceValidatorType.call Validator.minLen Validator.maxLen
       Validator.range Validator.min Validator.max Validator.number
       lookup list_lookup].
  unfold Validator.trimmedLength.
  change ([JS.toString n] !! 0%nat) with (Some (JS.toString n)).
  change ([JS.toString n; JS.toString m] !! 0%nat) with (Some (JS.toString n)).
  change ([JS.toString n; JS.toString m] !! 1%nat) with (Some (JS.toString m)).
  rewrite En, Em, Ev.
  by rewrite !ge_ofLength, !le_ofLength.
Qed.

(** The bounds of [index.js]: at least 4 characters, at most 5, and an
    age of 15 between 10 and 32. *)
Lemma bound_rules_meaning_witness :
  InstanceValidatorType.call Validator.minLen ∅ " ab " ["4"] = false ∧
  InstanceValidatorType.call Validator.min ∅ "15" ["10"] = true.
Proof.
  destruct (bound_rules_meaning ∅ " ab " 4 5 15)
    as (Hmin & _ & _ & _ & _ & _); [reflexivity..|].
  destruct (bound_rules_meaning ∅ "" 10 32 15)
    as (_ & _ & _ & Hge & _ & _); [reflexivity..|].
  split; [exact Hmin | exact Hge].
Defined.

(** X21.  A bound that is not a number makes its rule fail on every
    value: the parser counts the parameters of a rule and does not read
    them, and a comparison with [NaN] is false.  This holds for the
    bound of [minLen], [maxLen], [min] and [max] and for each of the two
    bounds of [range].  A value that is not a number fails [min] and
    [max] as it fails [number], whatever the bound. *)
Theorem nan_never_passes
    (this : gmap string string) (value : string) (args : list string) :
  (JS.Number (args !! 0%nat) = JS.NaN →
   InstanceValidatorType.call Validator.minLen this value args = false ∧
   InstanceValidatorType.call Validator.maxLen this value args = false ∧
   InstanceValidatorType.call Validator.range this value args = false ∧
   InstanceValidatorType.call Validator.min this value args = false ∧
   InstanceValidatorType.call Validator.max this value args = false) ∧
  (JS.Number (args !! 1%nat) = JS.NaN →
   InstanceValidatorType.call Validator.range this value args = false) ∧
  (InstanceValidatorType.call Validator.number this value args = false →
   InstanceValidatorType.call Validator.min this value args = false ∧
   InstanceValidatorType.call Validator.max this value args = false).
Proof.
  cbn [InstanceValidatorType.call Validator.minLen Validator.maxLen
       Validator.range Validator.min Validator.max Validator.number].
  split_and!.
  - intros ->. unfold JS.ge, JS.le, Validator.trimmedLength, JS.ofLength.
    split_and!; try done; by destruct (JS.Number (Some value)).
  - intros ->. unfold JS.ge, JS.le, Validator.trimmedLength, JS.ofLength.
    by rewrite andb_false_r.
  - intros H. destruct (JS.Number (Some value)); try done.
    unfold JS.ge, JS.le. by destruct (JS.Number (args !! 0%nat)).
Qed.

(** The rules [minLen:abc] and [range:1,x]. *)
Lemma nan_never_passes_witness :
  _validatorsParser Validator.validators "minLen:abc|range:1,x" =
    Ok [rule "minLen" ["abc"]; rule "range" ["1"; "x"]] ∧
  InstanceValidatorType.call Validator.minLen ∅ "abcdef" ["abc"] = false ∧
  InstanceValidatorType.call Validator.range ∅ "abcdef" ["1"; "x"] = false.
Proof.
  split; [reflexivity|]. split.
  - destruct (nan_never_passes ∅ "abcdef" ["abc"]) as [H _].
    by destruct H as (H & _); [reflexivity|].
  - destruct (nan_never_passes ∅ "abcdef" ["1"; "x"]) as (_ & H & _).
    by apply H.
Defined.

(** * The registry while validators run *)

Section RegistryChanges.

Implicit Types (V : ValidatorsType) (this : Validator.t).





End RegistryChanges.







(** * The calls of a submission *)

Section SubmitCalls.

Context (V : ValidatorsType).

Implicit Types (this : Validator.t) (form : HTMLFormElement).





End SubmitCalls.


